(** * App Graph: graph builder, layout wrapper and highlight resolver

    A shallow embedding of the three revisions of [App.tsx] of the App Graph
    viewer:

    - [Part000]: the builder that folds a list of test cases (traces of
      steps) into a graph ([src/unnamed/part_000]);
    - [AppTsx]: the builder over an explicit node/edge record, together
      with the highlight resolver [buildHighlightSet] and the two render
      overlays ([src/src/App.tsx]);
    - [Part001]: the builder over an explicit record whose nodes carry a
      [metadata] object, with entry-point resolution and edge labels
      ([src/unnamed/part_001]).

    JavaScript values are modelled as follows.  A [Map<string, V>] is an
    insertion-ordered association list ([JsMap]): [Array.from(m.values())]
    enumerates in insertion order and [set] on a present key overwrites in
    place.  A [Set<string>] that is only queried with [has] is a [gset
    string].  A plain object used as a record of optional keys
    ([metadata]) is a [gmap string _].  Numbers are rationals.  The dagre
    library is not part of the repository; [createLayout] takes its result
    as a parameter. *)

From Stdlib Require Import QArith.
From stdpp Require Import base option list strings gmap.

Local Open Scope string_scope.
Local Open Scope list_scope.

(** ** JavaScript prelude *)

Module Js.

(** [arr.forEach((x, index) => ...)] threading a state [S]. *)
Fixpoint forEach_from {A St : Type} (f : St → nat → A → St)
    (i : nat) (l : list A) (s : St) : St :=
  match l with
  | [] => s
  | x :: l' => forEach_from f (S i) l' (f s i x)
  end.

Definition forEach_indexed {A St : Type} (f : St → nat → A → St)
    (l : list A) (s : St) : St :=
  forEach_from f 0 l s.

(** [arr.forEach((x) => ...)] threading a state [St]. *)
Definition forEach {A St : Type} (f : St → A → St) (l : list A) (s : St) : St :=
  fold_left f l s.

(** Each element of a list with its successor, if any. *)
Fixpoint with_next {A : Type} (l : list A) : list (A * option A) :=
  match l with
  | [] => []
  | x :: l' => (x, head l') :: with_next l'
  end.

(** Truthiness of a string: only the empty string is falsy. *)
Definition truthy_string (s : string) : bool :=
  negb (String.eqb s "").

(** The template literal [`${a}->${b}`]. *)
Definition arrow (a b : string) : string := a ++ "->" ++ b.

End Js.

(** ** Insertion-ordered maps *)

Module JsMap.
Section defs.
Context {V : Type}.

Definition t : Type := list (string * V).

Definition empty : t := [].

Fixpoint get (k : string) (m : t) : option V :=
  match m with
  | [] => None
  | (k', v) :: m' => if decide (k = k') then Some v else get k m'
  end.

Definition has (k : string) (m : t) : bool :=
  match get k m with Some _ => true | None => false end.

Fixpoint set (k : string) (v : V) (m : t) : t :=
  match m with
  | [] => [(k, v)]
  | (k', v') :: m' =>
      if decide (k = k') then (k, v) :: m' else (k', v') :: set k v m'
  end.

Definition keys (m : t) : list string := m.*1.
Definition values (m : t) : list V := m.*2.

(** The idiom [if (!m.has(k)) m.set(k, v)]. *)
Definition add_if_absent (k : string) (v : V) (m : t) : t :=
  if negb (has k m) then set k v m else m.

(** A loop that inserts [val a] under [key a] unless the key is taken,
    and one that writes it unconditionally. *)
Definition fill {A : Type} (key : A → string) (val : A → V)
    (l : list A) (m : t) : t :=
  fold_left (λ m a, add_if_absent (key a) (val a) m) l m.

Definition overwrite {A : Type} (key : A → string) (val : A → V)
    (l : list A) (m : t) : t :=
  fold_left (λ m a, set (key a) (val a) m) l m.

End defs.
Global Arguments t : clear implicits.
End JsMap.

(** ** The rendering surface's node and edge records

    Only the fields the builders write are kept.  [data: { label }] is
    flattened to [node_label]; the start node is told apart by its
    [className] alone, as in the source. *)

Module ReactFlow.

Record Position := { x : Q; y : Q }.

Record Node := {
  node_id : string;
  node_label : string;
  node_position : Position;
  node_className : string;
}.

Record EdgeStyle := { stroke : string; strokeWidth : option Q }.

Record LabelStyle := { fill : string; fontSize : Z; fontWeight : Z }.

Record Edge := {
  edge_id : string;
  edge_source : string;
  edge_target : string;
  edge_animated : bool;
  edge_label : option string;
  edge_labelStyle : option LabelStyle;
  edge_style : EdgeStyle;
}.

(** What [buildGraph] returns: [{ nodes, edges }]. *)
Record Graph := { nodes : list Node; edges : list Edge }.

Definition startClassName : string :=
  "rounded-xl border border-emerald-300 bg-emerald-500/20 text-emerald-100 shadow-lg".

Definition plainClassName : string :=
  "rounded-xl border border-slate-700 bg-slate-900/80 text-slate-100 shadow-md".

(** [isStart ? '...emerald...' : '...slate...'] *)
Definition classNameOf (isStart : bool) : string :=
  if isStart then startClassName else plainClassName.

(** A built node is the start node when it carries the emerald class. *)
Definition isStart (n : Node) : bool :=
  bool_decide (node_className n = startClassName).

Definition node_ids (g : Graph) : list string := node_id <$> nodes g.
Definition edge_ids (g : Graph) : list string := edge_id <$> edges g.
Definition start_nodes (g : Graph) : list Node := filter (λ n, isStart n = true) (nodes g).

(** *** Properties of built graphs used in the statements *)

(** No edge joins a node to itself. *)
Definition no_self_loop (g : Graph) : Prop :=
  ∀ e, e ∈ edges g → edge_source e ≠ edge_target e.

(** Both ends of every edge are nodes of the graph. *)
Definition no_dangling (g : Graph) : Prop :=
  ∀ e, e ∈ edges g → edge_source e ∈ node_ids g ∧ edge_target e ∈ node_ids g.

(** Edge ids are canonical and pairwise distinct, and no two positions of
    the edge list hold the same (source, target) pair. *)
Definition edges_deduplicated (g : Graph) : Prop :=
  NoDup (edge_ids g)
  ∧ (∀ e, e ∈ edges g → edge_id e = Js.arrow (edge_source e) (edge_target e))
  ∧ (∀ (i j : nat) e1 e2,
       edges g !! i = Some e1 → edges g !! j = Some e2 →
       edge_source e1 = edge_source e2 → edge_target e1 = edge_target e2 →
       i = j).

(** The graph has exactly one start node, and it carries the id [s]. *)
Definition unique_start (g : Graph) (s : string) : Prop :=
  ∃ n, start_nodes g = [n] ∧ node_id n = s.

(** A node map in which every node records its key as its id and is
    classed as start exactly when that key is [sn]. *)
Definition keyed_nodes (sn : option string) (m : JsMap.t Node) : Prop :=
  ∀ k n, (k, n) ∈ m →
    node_id n = k ∧ node_className n = classNameOf (bool_decide (Some k = sn)).

End ReactFlow.

(** ** [createLayout]

    The function is the same text in the three revisions.  [dagre.layout]
    is a third-party routine: it is a parameter here, a function from the
    sequence of [setNode] calls (id with width and height), the sequence of
    [setEdge] calls (source, target) and a node id to that node's centre. *)

Module Layout.
Import ReactFlow.

Definition nodeWidth : Q := 180.
Definition nodeHeight : Q := 48.

Definition Dagre : Type :=
  list (string * (Q * Q)) → list (string * string) → string → Position.

Definition createLayout (dagre : Dagre) (nodes : list Node) (edges : list Edge)
    : list Node :=
  let graph :=
    dagre ((λ node, (node_id node, (nodeWidth, nodeHeight))) <$> nodes)
          ((λ edge, (edge_source edge, edge_target edge)) <$> edges) in
  (λ node,
     let p := graph (node_id node) in
     {| node_id := node_id node;
        node_label := node_label node;
        node_position := {| x := (x p - nodeWidth / 2)%Q;
                            y := (y p - nodeHeight / 2)%Q |};
        node_className := node_className node |}) <$> nodes.

(** A concrete stand-in for dagre, used to run the builders on examples:
    every node is centred at the origin. *)
Definition dagre_origin : Dagre := λ _ _ _, {| x := 0; y := 0 |}.

End Layout.

(** ** The common shape of the two explicit-graph builders

    Both write every input node under its id, overwriting, and every input
    edge under its key unless the key is taken, then lay the nodes out. *)

Module Shape.
Import ReactFlow Layout.

Definition build {N E : Type}
    (nodeKey : N → string) (nodeVal : N → Node)
    (edgeKey : E → string) (edgeVal : E → Edge)
    (dagre : Dagre) (ns : list N) (es : list E) : Graph :=
  let nodeMap := JsMap.overwrite nodeKey nodeVal ns JsMap.empty in
  let edgeMap := JsMap.fill edgeKey edgeVal es JsMap.empty in
  {| nodes := createLayout dagre (JsMap.values nodeMap) (JsMap.values edgeMap);
     edges := JsMap.values edgeMap |}.

End Shape.

(** ** Revision 1: the trace-list builder ([src/unnamed/part_000]) *)

Module Part000.
Import ReactFlow Layout.

Record Step := { index : Z; page : string; action : string }.

Record TestCase := { id : string; name : string; steps : list Step }.

Definition BuildState : Type := JsMap.t Node * JsMap.t Edge.

(** Body of [testCase.steps.forEach((step, index) => ...)]. *)
Definition visit (startPage : option string) (steps : list Step)
    (st : BuildState) (index : nat) (step : Step) : BuildState :=
  let '(pages, edgeMap) := st in
  let pages :=
    if negb (JsMap.has (page step) pages) then
      let isStart := bool_decide (Some (page step) = startPage) in
      JsMap.set (page step)
        {| node_id := page step;
           node_label := page step;
           node_position := {| x := 0; y := 0 |};
           node_className := classNameOf isStart |} pages
    else pages in
  let edgeMap :=
    match steps !! (index + 1)%nat with
    | Some next =>
        if negb (String.eqb (page next) (page step)) then
          let id := Js.arrow (page step) (page next) in
          if negb (JsMap.has id edgeMap) then
            JsMap.set id
              {| edge_id := id;
                 edge_source := page step;
                 edge_target := page next;
                 edge_animated := true;
                 edge_label := None;
                 edge_labelStyle := None;
                 edge_style := {| stroke := "#38bdf8"; strokeWidth := None |} |}
              edgeMap
          else edgeMap
        else edgeMap
    | None => edgeMap
    end in
  (pages, edgeMap).

(** [cases[0]?.steps[0]?.page] *)
Definition startPage (cases : list TestCase) : option string :=
  c ← cases !! 0%nat; s ← steps c !! 0%nat; Some (page s).

(** The two maps once both loops have run. *)
Definition buildMaps (cases : list TestCase) : BuildState :=
  let startPage := startPage cases in
  Js.forEach
    (λ st testCase,
       Js.forEach_indexed (visit startPage (steps testCase)) (steps testCase) st)
    cases (JsMap.empty, JsMap.empty).

Definition buildGraph (dagre : Dagre) (cases : list TestCase) : Graph :=
  let '(pages, edgeMap) := buildMaps cases in
  let nodes := JsMap.values pages in
  let edges := JsMap.values edgeMap in
  {| nodes := createLayout dagre nodes edges; edges := edges |}.

(** *** Notions used to state the builder's properties

    [transition c a b]: test case [c] has two consecutive steps, the
    first at location [a], the second at a different location [b]. *)
Definition transition (c : TestCase) (a b : string) : Prop :=
  ∃ (i : nat) (s n : Step),
    steps c !! i = Some s ∧ steps c !! (i + 1)%nat = Some n
    ∧ page s = a ∧ page n = b ∧ a ≠ b.

(** The node [visit] stores for a page it has not seen yet. *)
Definition pageNode (startPage : option string) (step : Step) : Node :=
  {| node_id := page step;
     node_label := page step;
     node_position := {| x := 0; y := 0 |};
     node_className := classNameOf (bool_decide (Some (page step) = startPage)) |}.

(** The edge [visit] stores for a transition it has not seen yet. *)
Definition transitionEdge (p : string * string) : Edge :=
  {| edge_id := Js.arrow p.1 p.2;
     edge_source := p.1;
     edge_target := p.2;
     edge_animated := true;
     edge_label := None;
     edge_labelStyle := None;
     edge_style := {| stroke := "#38bdf8"; strokeWidth := None |} |}.

Definition step_pair (p : Step * option Step) : option (string * string) :=
  match p.2 with
  | Some next =>
      if negb (String.eqb (page next) (page p.1))
      then Some (page p.1, page next) else None
  | None => None
  end.

(** The transitions of a trace, in step order. *)
Definition transitions (l : list Step) : list (string * string) :=
  omap step_pair (Js.with_next l).

Definition edgeKey (p : string * string) : string := Js.arrow p.1 p.2.

Definition allSteps (cases : list TestCase) : list Step :=
  concat (steps <$> cases).

Definition allTransitions (cases : list TestCase) : list (string * string) :=
  concat ((λ c, transitions (steps c)) <$> cases).

Definition oneStep (p : string) : Step :=
  {| index := 1; page := p; action := "navigate" |}.

(** A first test case without steps, followed by one with a step. *)
Definition emptyFirstCase : list TestCase :=
  [ {| id := "TS-000"; name := "Not recorded yet"; steps := [] |};
    {| id := "TS-001"; name := "Login flow"; steps := [oneStep "/login"] |} ].

(** Scenario 1 of the specification: traces A→B→C and A→D→C. *)
Definition scenario1 : list TestCase :=
  [ {| id := "T1"; name := "upper"; steps := oneStep <$> ["A"; "B"; "C"] |};
    {| id := "T2"; name := "lower"; steps := oneStep <$> ["A"; "D"; "C"] |} ].

(** Two traces that both go from A to B. *)
Definition twiceAB : list TestCase :=
  [ {| id := "T1"; name := "one"; steps := oneStep <$> ["A"; "B"] |};
    {| id := "T2"; name := "two"; steps := oneStep <$> ["A"; "A"; "B"; "C"] |} ].

Definition mockCases : list TestCase :=
  [ {| id := "TS-001"; name := "Login flow";
       steps := [ {| index := 1; page := "/login"; action := "navigate" |};
                  {| index := 2; page := "/login"; action := "fill_email" |};
                  {| index := 3; page := "/dashboard"; action := "redirect" |} ] |};
    {| id := "TS-002"; name := "Forgot password";
       steps := [ {| index := 1; page := "/login"; action := "navigate" |};
                  {| index := 2; page := "/forgot-password"; action := "click_link" |};
                  {| index := 3; page := "/reset"; action := "submit_form" |} ] |};
    {| id := "TS-003"; name := "Signup";
       steps := [ {| index := 1; page := "/signup"; action := "navigate" |};
                  {| index := 2; page := "/signup"; action := "fill_form" |};
                  {| index := 3; page := "/welcome"; action := "redirect" |} ] |} ].

End Part000.

(** ** Revision 2: the explicit-graph builder and the highlight resolver
       ([src/src/App.tsx]) *)

Module AppTsx.
Import ReactFlow Layout.

Inductive Status := passed | failed.

Record RelatedTestSuite := {
  suite_id : string;
  suite_name : string;
  lastStatus : Status;
  path : list string;
  lastRun : string;
}.

Record AppGraphNode := {
  id : string;
  label : string;
  type : string;
  personas : list string;
  environments : list string;
  coverage : bool;
  artifacts : list string;
  relatedTestSuites : list RelatedTestSuite;
}.

Record AppGraphEdge := { source : string; target : string }.

Record AppGraph := { nodes : list AppGraphNode; edges : list AppGraphEdge }.

(** [graph.nodes[0]?.id] *)
Definition startNode (graph : AppGraph) : option string :=
  id <$> nodes graph !! 0%nat.

(** Body of [graph.nodes.forEach((node) => ...)]. *)
Definition addNode (startNode : option string)
    (nodeMap : JsMap.t Node) (node : AppGraphNode) : JsMap.t Node :=
  let isStart := bool_decide (Some (id node) = startNode) in
  JsMap.set (id node)
    {| node_id := id node;
       node_label := label node;
       node_position := {| x := 0; y := 0 |};
       node_className := classNameOf isStart |} nodeMap.

(** Body of [graph.edges.forEach((edge) => ...)]. *)
Definition addEdge (edgeMap : JsMap.t Edge) (edge : AppGraphEdge) : JsMap.t Edge :=
  let id := Js.arrow (source edge) (target edge) in
  if negb (JsMap.has id edgeMap) then
    JsMap.set id
      {| edge_id := id;
         edge_source := source edge;
         edge_target := target edge;
         edge_animated := true;
         edge_label := None;
         edge_labelStyle := None;
         edge_style := {| stroke := "#38bdf8"; strokeWidth := None |} |}
      edgeMap
  else edgeMap.

Definition buildGraph (dagre : Dagre) (graph : AppGraph) : Graph :=
  let startNode := startNode graph in
  let nodeMap := Js.forEach (addNode startNode) (nodes graph) JsMap.empty in
  let edgeMap := Js.forEach addEdge (edges graph) JsMap.empty in
  let nodes := JsMap.values nodeMap in
  let edges := JsMap.values edgeMap in
  {| ReactFlow.nodes := createLayout dagre nodes edges; ReactFlow.edges := edges |}.

(** The records the two loops store, and the key of an input edge. *)
Definition builtNode (startNode : option string) (node : AppGraphNode) : Node :=
  {| node_id := id node;
     node_label := label node;
     node_position := {| x := 0; y := 0 |};
     node_className := classNameOf (bool_decide (Some (id node) = startNode)) |}.

Definition edgeKey (edge : AppGraphEdge) : string :=
  Js.arrow (source edge) (target edge).

Definition builtEdge (edge : AppGraphEdge) : Edge :=
  {| edge_id := edgeKey edge;
     edge_source := source edge;
     edge_target := target edge;
     edge_animated := true;
     edge_label := None;
     edge_labelStyle := None;
     edge_style := {| stroke := "#38bdf8"; strokeWidth := None |} |}.

(** *** The highlight resolver *)

Record HighlightSet := { nodeIds : gset string; edgeIds : gset string }.

(** Body of [path.forEach((nodeId, index) => ...)]. *)
Definition addPair (path : list string)
    (edgeIds : gset string) (index : nat) (nodeId : string) : gset string :=
  match path !! (index + 1)%nat with
  | Some next =>
      if Js.truthy_string next then {[ Js.arrow nodeId next ]} ∪ edgeIds
      else edgeIds
  | None => edgeIds
  end.

Definition buildHighlightSet (path : list string) : HighlightSet :=
  let nodeIds : gset string := list_to_set path in
  let edgeIds := Js.forEach_indexed (addPair path) path ∅ in
  {| nodeIds := nodeIds; edgeIds := edgeIds |}.

(** [highlightedSuite ? buildHighlightSet(highlightedSuite.path) : null] *)
Definition highlight (highlightedSuite : option RelatedTestSuite)
    : option HighlightSet :=
  (λ suite, buildHighlightSet (path suite)) <$> highlightedSuite.

(** The [nodes] memo of [App]: the base nodes, re-classed when a suite is
    hovered. *)
Definition renderNodes (baseNodes : list Node) (highlight : option HighlightSet)
    : list Node :=
  match highlight with
  | None => baseNodes
  | Some highlight =>
      (λ node,
         let isHighlighted := bool_decide (node_id node ∈ nodeIds highlight) in
         {| node_id := node_id node;
            node_label := node_label node;
            node_position := node_position node;
            node_className :=
              node_className node ++ " " ++
              (if isHighlighted
               then "ring-2 ring-sky-400 ring-offset-2 ring-offset-slate-950"
               else "") |}) <$> baseNodes
  end.

(** The [edges] memo of [App]. *)
Definition renderEdges (baseEdges : list Edge) (highlight : option HighlightSet)
    : list Edge :=
  match highlight with
  | None => baseEdges
  | Some highlight =>
      (λ edge,
         let isHighlighted := bool_decide (edge_id edge ∈ edgeIds highlight) in
         {| edge_id := edge_id edge;
            edge_source := edge_source edge;
            edge_target := edge_target edge;
            edge_animated := edge_animated edge;
            edge_label := edge_label edge;
            edge_labelStyle := edge_labelStyle edge;
            edge_style :=
              {| stroke := if isHighlighted then "#38bdf8" else "#334155";
                 strokeWidth := Some (if isHighlighted then 5 # 2 else 6 # 5) |} |})
      <$> baseEdges
  end.

(** What one pair of the path adds to the edge-id set. *)
Definition contribution (nodeId : string) (next : option string) : gset string :=
  match next with
  | Some next => if Js.truthy_string next then {[ Js.arrow nodeId next ]} else ∅
  | None => ∅
  end.

(** Soundness of a highlight against a built graph: every highlighted
    node id is a node id of the graph and every highlighted edge id is
    an edge id of the graph. *)
Definition highlight_sound (g : Graph) (path : list string) : Prop :=
  (∀ i, i ∈ nodeIds (buildHighlightSet path) → i ∈ node_ids g)
  ∧ (∀ i, i ∈ edgeIds (buildHighlightSet path) → i ∈ edge_ids g).

Definition plainNode (i : string) : AppGraphNode :=
  {| id := i; label := i; type := "page"; personas := []; environments := [];
     coverage := true; artifacts := []; relatedTestSuites := [] |}.

(** The structure of [mockGraph] (display-only fields left empty). *)
Definition mockGraph : AppGraph :=
  {| nodes := plainNode <$> ["/login"; "/cart"; "/checkout"; "/thank-you";
                             "/inventory"; "/dashboard"];
     edges := [ {| source := "/login"; target := "/dashboard" |};
                {| source := "/login"; target := "/cart" |};
                {| source := "/cart"; target := "/checkout" |};
                {| source := "/checkout"; target := "/thank-you" |};
                {| source := "/inventory"; target := "/checkout" |} ] |}.


(** [a] is the first edge of [es] with its id. *)
Definition first_with_id (es : list AppGraphEdge) (a : AppGraphEdge) : Prop :=
  List.find (λ a', bool_decide (edgeKey a' = edgeKey a)) es = Some a.

(** A record with an edge from a page to itself. *)
Definition selfLoopGraph : AppGraph :=
  {| nodes := [plainNode "/cart"];
     edges := [ {| source := "/cart"; target := "/cart" |} ] |}.

(** A record with an edge to a page that is not in the node list. *)
Definition danglingGraph : AppGraph :=
  {| nodes := [plainNode "/login"];
     edges := [ {| source := "/login"; target := "/dashboard" |} ] |}.

(** A record with no node and one edge. *)
Definition edgesOnlyGraph : AppGraph :=
  {| nodes := [];
     edges := [ {| source := "/login"; target := "/dashboard" |} ] |}.

End AppTsx.

(** ** Revision 3: the explicit-graph builder with entry points and labels
       ([src/unnamed/part_001]) *)

Module Part001.
Import ReactFlow Layout.

(** Values of the [metadata] object:
    [string | number | boolean | string[]]. *)
Inductive MetaValue :=
| MString (s : string)
| MNumber (n : Q)
| MBoolean (b : bool)
| MArray (l : list string).

(** JavaScript truthiness of a metadata value; a missing key is
    [undefined], which is falsy. *)
Definition truthy (v : option MetaValue) : bool :=
  match v with
  | None => false
  | Some (MString s) => Js.truthy_string s
  | Some (MNumber n) => negb (Qeq_bool n 0)
  | Some (MBoolean b) => b
  | Some (MArray _) => true
  end.

Record Coverage := { visited : bool; visits : Z; coverageScore : Q }.

Record AppGraphNode := {
  id : string;
  type : string;
  label : string;
  path : string;
  states : list string;
  artifacts : gmap string string;
  coverage : Coverage;
  metadata : gmap string MetaValue;
}.

Inductive CondValue :=
| CString (s : string)
| CNumber (n : Q)
| CBoolean (b : bool).

Record AppGraphEdge := {
  source : string;
  target : string;
  etype : string;
  elabel : string;
  conditions : option (gmap string CondValue);
}.

Record AppGraph := {
  environment : string;
  persona : string;
  version : string;
  nodes : list AppGraphNode;
  edges : list AppGraphEdge;
}.

(** [node.metadata.entryPoint], as a condition. *)
Definition entryPoint (node : AppGraphNode) : bool :=
  truthy (metadata node !! "entryPoint").

(** [graph.nodes.find((node) => node.metadata.entryPoint)?.id] *)
Definition entryNode (graph : AppGraph) : option string :=
  id <$> List.find entryPoint (nodes graph).

(** [entryNode ?? graph.nodes[0]?.id] *)
Definition startNode (graph : AppGraph) : option string :=
  match entryNode graph with
  | Some i => Some i
  | None => id <$> nodes graph !! 0%nat
  end.

Definition addNode (startNode : option string)
    (nodeMap : JsMap.t Node) (node : AppGraphNode) : JsMap.t Node :=
  let isStart := bool_decide (Some (id node) = startNode) in
  JsMap.set (id node)
    {| node_id := id node;
       node_label := label node;
       node_position := {| x := 0; y := 0 |};
       node_className := classNameOf isStart |} nodeMap.

Definition addEdge (edgeMap : JsMap.t Edge) (edge : AppGraphEdge) : JsMap.t Edge :=
  let id := Js.arrow (source edge) (target edge) in
  if negb (JsMap.has id edgeMap) then
    JsMap.set id
      {| edge_id := id;
         edge_source := source edge;
         edge_target := target edge;
         edge_animated := true;
         edge_label := Some (elabel edge);
         edge_labelStyle :=
           Some {| fill := "#e2e8f0"; fontSize := 12; fontWeight := 600 |};
         edge_style := {| stroke := "#38bdf8"; strokeWidth := None |} |}
      edgeMap
  else edgeMap.

Definition buildGraph (dagre : Dagre) (graph : AppGraph) : Graph :=
  let startNode := startNode graph in
  let nodeMap := Js.forEach (addNode startNode) (nodes graph) JsMap.empty in
  let edgeMap := Js.forEach addEdge (edges graph) JsMap.empty in
  let nodes := JsMap.values nodeMap in
  let edges := JsMap.values edgeMap in
  {| ReactFlow.nodes := createLayout dagre nodes edges; ReactFlow.edges := edges |}.

(** The records the two loops store, and the key of an input edge. *)
Definition builtNode (startNode : option string) (node : AppGraphNode) : Node :=
  {| node_id := id node;
     node_label := label node;
     node_position := {| x := 0; y := 0 |};
     node_className := classNameOf (bool_decide (Some (id node) = startNode)) |}.

Definition edgeKey (edge : AppGraphEdge) : string :=
  Js.arrow (source edge) (target edge).

Definition builtEdge (edge : AppGraphEdge) : Edge :=
  {| edge_id := edgeKey edge;
     edge_source := source edge;
     edge_target := target edge;
     edge_animated := true;
     edge_label := Some (elabel edge);
     edge_labelStyle :=
       Some {| fill := "#e2e8f0"; fontSize := 12; fontWeight := 600 |};
     edge_style := {| stroke := "#38bdf8"; strokeWidth := None |} |}.

Definition mkNode (i l : string) (meta : gmap string MetaValue) : AppGraphNode :=
  {| id := i; type := "route"; label := l; path := "/"; states := [];
     artifacts := ∅;
     coverage := {| visited := true; visits := 0; coverageScore := 0 |};
     metadata := meta |}.

Definition mkEdge (s t l : string) : AppGraphEdge :=
  {| source := s; target := t; etype := "action"; elabel := l;
     conditions := None |}.

Definition mkGraph (ns : list AppGraphNode) (es : list AppGraphEdge) : AppGraph :=
  {| environment := "staging"; persona := "guest"; version := "v2.3.14";
     nodes := ns; edges := es |}.


(** [a] is the first edge of [es] with its (source, target) pair. *)
Definition first_with_pair (es : list AppGraphEdge) (a : AppGraphEdge) : Prop :=
  List.find (λ a', bool_decide (source a' = source a ∧ target a' = target a)) es
  = Some a.

(** [a] is the first edge of [es] with its id. *)
Definition first_with_id (es : list AppGraphEdge) (a : AppGraphEdge) : Prop :=
  List.find (λ a', bool_decide (edgeKey a' = edgeKey a)) es = Some a.

(** First-write-wins read per (source, target) pair: whenever a pair
    occurs more than once in the input, the built graph has an edge with
    that source and target, labelled as the pair's first input edge. *)
Definition first_write_wins_by_pair (g : Graph) (graph : AppGraph) : Prop :=
  ∀ (i j : nat) a b,
    edges graph !! i = Some a → edges graph !! j = Some b → i ≠ j →
    source b = source a → target b = target a →
    first_with_pair (edges graph) a →
    ∃ e, e ∈ ReactFlow.edges g
         ∧ edge_source e = source a ∧ edge_target e = target a
         ∧ edge_label e = Some (elabel a).

Definition entryMeta : gmap string MetaValue := {[ "entryPoint" := MBoolean true ]}.

(** Two nodes, the second one flagged as entry point. *)
Definition flaggedSecond : AppGraph :=
  mkGraph [mkNode "Y" "Why" ∅; mkNode "X" "Ex" entryMeta] [].

(** Two different (source, target) pairs with the same id, the second
    pair given twice. *)
Definition collidingGraph : AppGraph :=
  mkGraph [mkNode "a" "A" ∅; mkNode "a->b" "AB" ∅; mkNode "b->c" "BC" ∅;
           mkNode "c" "C" ∅]
          [mkEdge "a->b" "c" "first"; mkEdge "a" "b->c" "second";
           mkEdge "a" "b->c" "third"].

(** One pair given twice with different labels. *)
Definition relabelledGraph : AppGraph :=
  mkGraph [mkNode "node-1" "Home Page" entryMeta; mkNode "node-2" "Search" ∅]
          [mkEdge "node-1" "node-2" "Search Click";
           mkEdge "node-1" "node-2" "Press Enter"].

End Part001.


(** ** Order of first occurrence *)

Module Order.

(** The distinct elements of a list, each at the place of its first
    occurrence. *)
Fixpoint first_occurrences (l : list string) : list string :=
  match l with
  | [] => []
  | x :: l' => x :: filter (λ y, y ≠ x) (first_occurrences l')
  end.

End Order.

(** ** The trace list as an explicit record

    The record a trace list stands for: one node per step, in step order,
    labelled with its page, and one edge per transition. *)

Module Conversion.

Definition stepNode (s : Part000.Step) : AppTsx.AppGraphNode :=
  AppTsx.plainNode (Part000.page s).

Definition transitionInput (p : string * string) : AppTsx.AppGraphEdge :=
  {| AppTsx.source := p.1; AppTsx.target := p.2 |}.

Definition asRecord (cases : list Part000.TestCase) : AppTsx.AppGraph :=
  {| AppTsx.nodes := stepNode <$> Part000.allSteps cases;
     AppTsx.edges := transitionInput <$> Part000.allTransitions cases |}.

End Conversion.

(** ** The [App] component of [src/src/App.tsx]

    The two [useState] cells, the handlers that write them and the values
    derived from them.  The source builds everything from the constant
    [mockGraph]; the record is a parameter here. *)

Module AppComponent.
Import ReactFlow Layout AppTsx.

Record State := {
  selectedNodeId : option string;
  highlightedSuite : option RelatedTestSuite;
}.

(** [useState(null)] twice. *)
Definition initial : State :=
  {| selectedNodeId := None; highlightedSuite := None |}.

Definition handleNodeClick (node : Node) (st : State) : State :=
  {| selectedNodeId := Some (node_id node); highlightedSuite := None |}.

Definition handleCloseSidebar (st : State) : State :=
  {| selectedNodeId := None; highlightedSuite := None |}.

(** [onMouseEnter={() => setHighlightedSuite(suite)}] *)
Definition onMouseEnter (suite : RelatedTestSuite) (st : State) : State :=
  {| selectedNodeId := selectedNodeId st; highlightedSuite := Some suite |}.

(** [onMouseLeave={() => setHighlightedSuite(null)}] *)
Definition onMouseLeave (st : State) : State :=
  {| selectedNodeId := selectedNodeId st; highlightedSuite := None |}.

(** [graph.nodes.find((node) => node.id === selectedNodeId) ?? null] *)
Definition selectedNode (graph : AppGraph) (st : State) : option AppGraphNode :=
  List.find (λ node, bool_decide (Some (id node) = selectedNodeId st)) (nodes graph).

(** The [nodes] and [edges] handed to the rendering surface. *)
Definition shownNodes (dagre : Dagre) (graph : AppGraph) (st : State) : list Node :=
  renderNodes (ReactFlow.nodes (buildGraph dagre graph))
    (highlight (highlightedSuite st)).

Definition shownEdges (dagre : Dagre) (graph : AppGraph) (st : State) : list Edge :=
  renderEdges (ReactFlow.edges (buildGraph dagre graph))
    (highlight (highlightedSuite st)).

(** [selectedNode ? 'translate-x-0' : 'translate-x-full'] *)
Definition sidebarClass (graph : AppGraph) (st : State) : string :=
  match selectedNode graph st with
  | Some _ => "translate-x-0"
  | None => "translate-x-full"
  end.

Inductive Event :=
| NodeClick (node : Node)
| Close
| Enter (suite : RelatedTestSuite)
| Leave.

Definition handle (ev : Event) (st : State) : State :=
  match ev with
  | NodeClick node => handleNodeClick node st
  | Close => handleCloseSidebar st
  | Enter suite => onMouseEnter suite st
  | Leave => onMouseLeave st
  end.

(** The events the rendered page can deliver in a state: a click on a
    node that is drawn, and, while a node is selected, the Close button
    and the buttons of that node's related test suites. *)
Definition offered (dagre : Dagre) (graph : AppGraph) (st : State) (ev : Event)
    : Prop :=
  match ev with
  | NodeClick node => node ∈ shownNodes dagre graph st
  | Close => is_Some (selectedNode graph st)
  | Enter suite =>
      ∃ n, selectedNode graph st = Some n ∧ suite ∈ relatedTestSuites n
  | Leave => is_Some (selectedNode graph st)
  end.

Inductive reachable (dagre : Dagre) (graph : AppGraph) : State → Prop :=
| reachable_initial : reachable dagre graph initial
| reachable_handle st ev :
    reachable dagre graph st → offered dagre graph st ev →
    reachable dagre graph (handle ev st).

Definition authSuite : RelatedTestSuite :=
  {| suite_id := "TS-10"; suite_name := "Authorization"; lastStatus := passed;
     path := ["/login"; "/dashboard"]; lastRun := "2026-02-02T09:15:00Z" |}.

(** Two pages of the mock graph with their related suite. *)
Definition loginGraph : AppGraph :=
  {| nodes :=
       [ {| id := "/login"; label := "/login"; type := "page";
            personas := ["guest"; "user"]; environments := ["staging"; "production"];
            coverage := true; artifacts := ["screenshot"; "trace"];
            relatedTestSuites := [authSuite] |};
         {| id := "/dashboard"; label := "/dashboard"; type := "page";
            personas := ["user"]; environments := ["production"];
            coverage := true; artifacts := ["screenshot"; "trace"; "video"];
            relatedTestSuites := [authSuite] |} ];
     edges := [ {| source := "/login"; target := "/dashboard" |} ] |}.

End AppComponent.

(** ** Further example inputs *)

Module Inputs.

(** A record that gives the id [/cart] twice, with different labels. *)
Definition relabelledNodes : AppTsx.AppGraph :=
  {| AppTsx.nodes :=
       [ {| AppTsx.id := "/cart"; AppTsx.label := "Cart"; AppTsx.type := "page";
            AppTsx.personas := []; AppTsx.environments := [];
            AppTsx.coverage := true; AppTsx.artifacts := [];
            AppTsx.relatedTestSuites := [] |};
         AppTsx.plainNode "/checkout";
         {| AppTsx.id := "/cart"; AppTsx.label := "Basket"; AppTsx.type := "page";
            AppTsx.personas := []; AppTsx.environments := [];
            AppTsx.coverage := false; AppTsx.artifacts := [];
            AppTsx.relatedTestSuites := [] |} ];
     AppTsx.edges := [ {| AppTsx.source := "/cart"; AppTsx.target := "/checkout" |} ] |}.

End Inputs.

(** ** The [App] component of [src/unnamed/part_001]

    One [useState] cell; the node and edge lists are handed on as built.
    The record is a parameter, as above. *)

Module Part001Component.
Import ReactFlow Layout Part001.

(** [selectedNodeId] *)
Definition State : Type := option string.

Definition initial : State := None.

Definition handleNodeClick (node : Node) (st : State) : State :=
  Some (node_id node).

Definition handleCloseSidebar (st : State) : State := None.

(** [graph.nodes.find((node) => node.id === selectedNodeId) ?? null] *)
Definition selectedNode (graph : AppGraph) (st : State) : option AppGraphNode :=
  List.find (λ node, bool_decide (Some (id node) = st)) (nodes graph).

(** [selectedNode ? 'translate-x-0' : 'translate-x-full'] *)
Definition sidebarClass (graph : AppGraph) (st : State) : string :=
  match selectedNode graph st with
  | Some _ => "translate-x-0"
  | None => "translate-x-full"
  end.

End Part001Component.

(** * Facts about the prelude *)

Module JsFacts.
Import Js.

Lemma truthy_string_spec s : truthy_string s = true ↔ s ≠ "".
Proof.
  unfold truthy_string. destruct (String.eqb_spec s ""); simpl; split; done.
Qed.

Lemma elem_of_with_next {A : Type} (l : list A) (a : A) (ob : option A) :
  (a, ob) ∈ with_next l ↔ ∃ k : nat, l !! k = Some a ∧ l !! (k + 1)%nat = ob.
Proof.
  induction l as [|x l IH]; simpl.
  - split; [intros H; by apply elem_of_nil in H | intros (k & H & _); done].
  - rewrite elem_of_cons, IH. split.
    + intros [[= -> ->]|(k & Ha & Hb)].
      * exists 0%nat. split; [done|]. simpl. by rewrite head_lookup.
      * exists (S k). done.
    + intros ([|k] & Ha & Hb); simpl in *.
      * left. rewrite head_lookup. congruence.
      * right. by exists k.
Qed.

(** An indexed loop whose body reads only the current element and its
    successor is a plain loop over [with_next]. *)
Lemma forEach_from_with_next {A St : Type} (g : St → A → option A → St)
    (all : list A) :
  ∀ (l : list A) (i : nat) (s : St),
    drop i all = l →
    forEach_from (λ s i x, g s x (all !! (i + 1)%nat)) i l s
    = fold_left (λ s p, g s p.1 p.2) (with_next l) s.
Proof.
  induction l as [|x l IH]; intros i s Hdrop; [done|].
  assert (Hl : drop (S i) all = l).
  { replace (S i) with (i + 1)%nat by lia. by rewrite <- drop_drop, Hdrop. }
  assert (Hnext : all !! (i + 1)%nat = head l).
  { rewrite <- Hl, Nat.add_1_r. rewrite <- (Nat.add_0_r (S i)) at 1.
    rewrite <- lookup_drop. by destruct (drop (S i) all). }
  simpl. rewrite (IH (S i)) by done. by rewrite Hnext.
Qed.

Lemma elem_of_concat {A : Type} (x : A) (ls : list (list A)) :
  x ∈ concat ls ↔ ∃ l, x ∈ l ∧ l ∈ ls.
Proof.
  rewrite list_elem_of_In, in_concat. split.
  - intros (l & Hl & Hx). exists l. by rewrite !list_elem_of_In.
  - intros (l & Hx & Hl). exists l. by rewrite <- !list_elem_of_In.
Qed.

End JsFacts.

Module JsMapFacts.
Import JsMap.
Section facts.
Context {V : Type}.
Implicit Types (m : JsMap.t V) (k : string) (v : V).

Lemma get_None_keys k m : get k m = None ↔ k ∉ keys m.
Proof.
  induction m as [|[k' v] m IH]; simpl.
  - split; [intros _; apply not_elem_of_nil | done].
  - rewrite not_elem_of_cons. destruct (decide (k = k')) as [->|Hne].
    + split; [done | intros [? _]; done].
    + rewrite IH. tauto.
Qed.

Lemma has_true k m : has k m = true ↔ k ∈ keys m.
Proof.
  unfold has. destruct (get k m) eqn:E.
  - split; [intros _|done].
    destruct (decide (k ∈ keys m)) as [|Hn]; [done|].
    apply get_None_keys in Hn. congruence.
  - split; [done|]. intros Hin. apply get_None_keys in E. done.
Qed.

Lemma has_false k m : has k m = false ↔ k ∉ keys m.
Proof.
  rewrite <- has_true. destruct (has k m); split; try done.
Qed.

Lemma get_set k v m k' :
  get k' (set k v m) = if decide (k' = k) then Some v else get k' m.
Proof.
  induction m as [|[k0 v0] m IH]; simpl.
  - done.
  - destruct (decide (k = k0)) as [->|Hne]; simpl.
    + destruct (decide (k' = k0)); done.
    + rewrite IH. destruct (decide (k' = k0)) as [->|]; [|done].
      destruct (decide (k0 = k)); [congruence | done].
Qed.

Lemma set_absent k v m : k ∉ keys m → set k v m = m ++ [(k, v)].
Proof.
  induction m as [|[k0 v0] m IH]; simpl; [done|].
  rewrite not_elem_of_cons. intros [Hne Hnin].
  destruct (decide (k = k0)); [done|]. by rewrite IH.
Qed.

Lemma keys_set_present k v m : k ∈ keys m → keys (set k v m) = keys m.
Proof.
  induction m as [|[k0 v0] m IH]; simpl.
  - intros H. by apply elem_of_nil in H.
  - intros H. destruct (decide (k = k0)) as [->|Hne]; simpl; [done|].
    f_equal. apply IH. apply elem_of_cons in H as [?|?]; done.
Qed.

Lemma keys_set k v m :
  keys (set k v m) = if has k m then keys m else keys m ++ [k].
Proof.
  destruct (has k m) eqn:E.
  - apply keys_set_present. by apply has_true.
  - apply has_false in E. rewrite set_absent by done.
    unfold keys. by rewrite fmap_app.
Qed.

Lemma NoDup_keys_set k v m : NoDup (keys m) → NoDup (keys (set k v m)).
Proof.
  intros Hnd. rewrite keys_set. destruct (has k m) eqn:E; [done|].
  apply has_false in E. apply NoDup_app. split_and!; [done| |apply NoDup_singleton].
  intros x Hx Hx'. apply list_elem_of_singleton in Hx'. by subst.
Qed.

Lemma elem_of_get k v m : NoDup (keys m) → (k, v) ∈ m ↔ get k m = Some v.
Proof.
  induction m as [|[k0 v0] m IH]; simpl.
  - intros _. split; [intros H; by apply elem_of_nil in H | done].
  - intros Hnd. apply NoDup_cons in Hnd as [Hnin Hnd].
    rewrite elem_of_cons. destruct (decide (k = k0)) as [->|Hne].
    + split.
      * intros [Heq|Hin]; [congruence|].
        exfalso. apply Hnin. change k0 with ((k0, v).1).
        by apply list_elem_of_fmap_2.
      * intros [= ->]. by left.
    + rewrite <- IH by done. split; [|by right].
      intros [Heq|Hin]; [congruence | done].
Qed.

Lemma get_Some_elem_of k v m : get k m = Some v → (k, v) ∈ m.
Proof.
  induction m as [|[k0 v0] m IH]; simpl; [done|].
  destruct (decide (k = k0)) as [->|Hne].
  - intros [= ->]. apply elem_of_cons. by left.
  - intros H. apply elem_of_cons. right. by apply IH.
Qed.

Lemma elem_of_values v m : v ∈ values m ↔ ∃ k, (k, v) ∈ m.
Proof.
  unfold values. rewrite list_elem_of_fmap. split.
  - intros [[k v'] [-> Hin]]. by exists k.
  - intros [k Hin]. by exists (k, v).
Qed.


Lemma elem_of_keys_get k m : k ∈ keys m ↔ is_Some (get k m).
Proof.
  destruct (get k m) eqn:E.
  - split; [by eauto|]. intros _.
    destruct (decide (k ∈ keys m)) as [|Hn]; [done|].
    apply get_None_keys in Hn. congruence.
  - apply get_None_keys in E. split; [done|]. intros [? ?]. done.
Qed.

Lemma elem_of_set k v m k' v' :
  (k', v') ∈ set k v m → (k' = k ∧ v' = v) ∨ (k', v') ∈ m.
Proof.
  induction m as [|[k0 v0] m IH]; simpl.
  - intros H. apply list_elem_of_singleton in H. left. by inversion H.
  - destruct (decide (k = k0)) as [->|Hne]; rewrite !elem_of_cons.
    + intros [H|H]; [left; by inversion H | right; by right].
    + intros [H|H]; [right; by left|].
      destruct (IH H) as [?|?]; [by left | right; by right].
Qed.

Lemma get_add_if_absent k v m k' :
  get k' (add_if_absent k v m) =
    match get k' m with
    | Some w => Some w
    | None => if decide (k' = k) then Some v else None
    end.
Proof.
  unfold add_if_absent, has. destruct (get k m) eqn:E; simpl.
  - destruct (get k' m) eqn:E'; [done|].
    destruct (decide (k' = k)); [congruence | done].
  - rewrite get_set. destruct (decide (k' = k)) as [->|]; [by rewrite E|].
    by destruct (get k' m).
Qed.

Lemma NoDup_keys_add_if_absent k v m :
  NoDup (keys m) → NoDup (keys (add_if_absent k v m)).
Proof.
  unfold add_if_absent. destruct (has k m); simpl; [done|].
  apply NoDup_keys_set.
Qed.

Section folds.
Context {A : Type} (key : A → string) (val : A → V).

Lemma fill_nil m : fill key val [] m = m.
Proof. reflexivity. Qed.

Lemma fill_cons a l m :
  fill key val (a :: l) m = fill key val l (add_if_absent (key a) (val a) m).
Proof. reflexivity. Qed.

Lemma fill_app l1 l2 m :
  fill key val (l1 ++ l2) m = fill key val l2 (fill key val l1 m).
Proof. unfold fill. apply fold_left_app. Qed.

Lemma overwrite_cons a l m :
  overwrite key val (a :: l) m = overwrite key val l (set (key a) (val a) m).
Proof. reflexivity. Qed.

Lemma get_fill l m i :
  get i (fill key val l m) =
    match get i m with
    | Some w => Some w
    | None => val <$> List.find (λ a, bool_decide (key a = i)) l
    end.
Proof.
  revert m. induction l as [|a l IH]; intros m.
  - rewrite fill_nil. by destruct (get i m).
  - rewrite fill_cons, IH, get_add_if_absent. simpl.
    destruct (get i m); [done|].
    destruct (decide (i = key a)) as [->|Hne].
    + by rewrite bool_decide_eq_true_2.
    + by rewrite bool_decide_eq_false_2.
Qed.

Lemma NoDup_keys_fill l m :
  NoDup (keys m) → NoDup (keys (fill key val l m)).
Proof.
  revert m. induction l as [|a l IH]; intros m Hnd; [done|].
  rewrite fill_cons. apply IH. by apply NoDup_keys_add_if_absent.
Qed.

Lemma NoDup_keys_overwrite l m :
  NoDup (keys m) → NoDup (keys (overwrite key val l m)).
Proof.
  revert m. induction l as [|a l IH]; intros m Hnd; [done|].
  rewrite overwrite_cons. apply IH. by apply NoDup_keys_set.
Qed.

Lemma elem_of_keys_overwrite l m i :
  i ∈ keys (overwrite key val l m) ↔ i ∈ keys m ∨ i ∈ key <$> l.
Proof.
  revert m. induction l as [|a l IH]; intros m.
  - split; [by left|]. intros [?|H]; [done|]. by apply elem_of_nil in H.
  - rewrite overwrite_cons, IH, fmap_cons, elem_of_cons.
    rewrite !elem_of_keys_get, get_set.
    destruct (decide (i = key a)) as [->|Hne].
    + split; [intros _; right; by left | intros _; left; by eauto].
    + tauto.
Qed.

Lemma elem_of_overwrite l m k v :
  (k, v) ∈ overwrite key val l m →
  (k, v) ∈ m ∨ ∃ a, a ∈ l ∧ k = key a ∧ v = val a.
Proof.
  revert m. induction l as [|a l IH]; intros m; [by left|].
  rewrite overwrite_cons.
  intros H. apply IH in H as [H|(a' & Hin & ? & ?)].
  - apply elem_of_set in H as [[-> ->]|H]; [|by left].
    right. exists a. split; [apply elem_of_cons; by left | done].
  - right. exists a'. split; [apply elem_of_cons; by right | done].
Qed.

Lemma elem_of_fill l k v :
  (k, v) ∈ fill key val l empty ↔
  ∃ a, List.find (λ a, bool_decide (key a = k)) l = Some a ∧ v = val a.
Proof.
  rewrite elem_of_get by (apply NoDup_keys_fill, NoDup_nil_2).
  rewrite get_fill. simpl.
  destruct (List.find _ l) as [a|]; simpl.
  - split; [intros [= <-]; by exists a | intros (a' & [= <-] & ->); done].
  - split; [done | intros (a' & ? & _); done].
Qed.

Lemma elem_of_keys_fill l i :
  i ∈ keys (fill key val l empty) ↔ i ∈ key <$> l.
Proof.
  rewrite elem_of_keys_get, get_fill. simpl. rewrite list_elem_of_fmap. split.
  - intros [w Hw]. destruct (List.find _ l) as [a|] eqn:E; [|done].
    apply find_some in E as [Hin Hk]. apply bool_decide_eq_true in Hk.
    exists a. split; [done | by apply list_elem_of_In].
  - intros (a & -> & Hin). apply list_elem_of_In in Hin.
    destruct (List.find (λ a0, bool_decide (key a0 = key a)) l) eqn:E; [by eauto|].
    exfalso. eapply find_none in E; [|done]. simpl in E.
    by rewrite bool_decide_eq_true_2 in E.
Qed.

Lemma elem_of_fill_inv l m k v :
  (k, v) ∈ fill key val l m →
  (k, v) ∈ m ∨ ∃ a, a ∈ l ∧ k = key a ∧ v = val a.
Proof.
  revert m. induction l as [|a l IH]; intros m; [by left|].
  rewrite fill_cons.
  intros H. apply IH in H as [H|(a' & Hin & ? & ?)].
  - unfold add_if_absent in H. destruct (negb (has (key a) m)); [|by left].
    apply elem_of_set in H as [[-> ->]|H]; [|by left].
    right. exists a. split; [apply elem_of_cons; by left | done].
  - right. exists a'. split; [apply elem_of_cons; by right | done].
Qed.

End folds.


(** When every value records its own key, the values' keys are the keys. *)
Lemma keyed_values (f : V → string) m :
  (∀ k v, (k, v) ∈ m → f v = k) → f <$> values m = keys m.
Proof.
  induction m as [|[k v] m IH]; intros Hkey; [done|].
  unfold values, keys in *. rewrite !fmap_cons. simpl. f_equal.
  - apply Hkey, elem_of_cons. by left.
  - apply IH. intros k' v' Hin. apply Hkey, elem_of_cons. by right.
Qed.

Lemma values_empty : values (empty : JsMap.t V) = [].
Proof. reflexivity. Qed.

End facts.
End JsMapFacts.

Module ReactFlowFacts.
Import ReactFlow.

Lemma isStart_classNameOf i l p b :
  isStart {| node_id := i; node_label := l; node_position := p;
             node_className := classNameOf b |} = b.
Proof. destruct b; reflexivity. Qed.


Lemma isStart_plain (n : Node) :
  node_className n = plainClassName → isStart n = false.
Proof. unfold isStart. intros ->. reflexivity. Qed.

Lemma filter_isStart_nil (ns : list Node) :
  (∀ n, n ∈ ns → isStart n = false) →
  filter (λ n, isStart n = true) ns = [].
Proof.
  induction ns as [|n ns IH]; intros H; [done|].
  rewrite filter_cons_False.
  - apply IH. intros n' Hin. apply H, elem_of_cons. by right.
  - rewrite (H n); [done|]. apply elem_of_cons. by left.
Qed.

(** In a list of nodes with distinct ids where being the start node means
    carrying the id [s], there is exactly one start node as soon as [s]
    occurs. *)
Lemma filter_isStart_singleton (ns : list Node) (s : string) :
  NoDup (node_id <$> ns) →
  (∀ n, n ∈ ns → isStart n = bool_decide (node_id n = s)) →
  s ∈ node_id <$> ns →
  ∃ n, filter (λ n, isStart n = true) ns = [n] ∧ node_id n = s.
Proof.
  induction ns as [|n ns IH]; intros Hnd Hst Hin.
  - by apply elem_of_nil in Hin.
  - rewrite fmap_cons in Hnd, Hin. apply NoDup_cons in Hnd as [Hnin Hnd].
    assert (Hn : isStart n = bool_decide (node_id n = s)).
    { apply Hst, elem_of_cons. by left. }
    assert (Hrest : ∀ n', n' ∈ ns → isStart n' = bool_decide (node_id n' = s)).
    { intros n' Hn'. apply Hst, elem_of_cons. by right. }
    destruct (decide (node_id n = s)) as [Heq|Hne].
    + exists n. split; [|done]. rewrite filter_cons_True.
      * f_equal. apply filter_isStart_nil. intros n' Hn'.
        rewrite (Hrest n' Hn'). apply bool_decide_eq_false_2. intros Heq'.
        apply Hnin. rewrite Heq, <- Heq'. by apply list_elem_of_fmap_2.
      * rewrite Hn. by apply bool_decide_eq_true_2.
    + rewrite filter_cons_False.
      * apply IH; [done..|]. apply elem_of_cons in Hin as [?|?]; [congruence|done].
      * rewrite Hn, bool_decide_eq_false_2 by done. done.
Qed.

End ReactFlowFacts.

Module LayoutFacts.
Import ReactFlow Layout.

Lemma createLayout_ids dagre ns es :
  node_id <$> createLayout dagre ns es = node_id <$> ns.
Proof.
  unfold createLayout. rewrite <- list_fmap_compose. by apply list_fmap_ext.
Qed.


Lemma createLayout_isStart dagre ns es :
  isStart <$> createLayout dagre ns es = isStart <$> ns.
Proof.
  unfold createLayout. rewrite <- list_fmap_compose. by apply list_fmap_ext.
Qed.

Lemma createLayout_elem_of dagre ns es n' :
  n' ∈ createLayout dagre ns es →
  ∃ n, n ∈ ns ∧ node_id n' = node_id n ∧ node_label n' = node_label n
       ∧ node_className n' = node_className n.
Proof.
  unfold createLayout. intros H. apply list_elem_of_fmap in H as [n [-> Hin]].
  by exists n.
Qed.



End LayoutFacts.

(** * Shapes shared by the three builders *)

Module BuilderFacts.
Import ReactFlow Layout JsMapFacts ReactFlowFacts LayoutFacts.

Section node_loop.
Context {A : Type} (key : A → string) (val : A → Node) (sn : option string).
Hypothesis val_id : ∀ a, node_id (val a) = key a.
Hypothesis val_class :
  ∀ a, node_className (val a) = classNameOf (bool_decide (Some (key a) = sn)).

Lemma keyed_overwrite l : keyed_nodes sn (JsMap.overwrite key val l JsMap.empty).
Proof.
  intros k n H. apply elem_of_overwrite in H as [H|(a & _ & -> & ->)].
  - by apply elem_of_nil in H.
  - by rewrite val_id, val_class.
Qed.

Lemma keyed_fill l : keyed_nodes sn (JsMap.fill key val l JsMap.empty).
Proof.
  intros k n H. apply elem_of_fill_inv in H as [H|(a & _ & -> & ->)].
  - by apply elem_of_nil in H.
  - by rewrite val_id, val_class.
Qed.
End node_loop.

(** What a keyed node map turns into once laid out. *)
Lemma keyed_layout_ids sn dagre m es :
  keyed_nodes sn m →
  node_id <$> createLayout dagre (JsMap.values m) es = JsMap.keys m.
Proof.
  intros Hk. rewrite createLayout_ids. apply keyed_values.
  intros k n H. by apply Hk.
Qed.

Lemma keyed_layout_isStart sn dagre m es n :
  keyed_nodes sn m →
  n ∈ createLayout dagre (JsMap.values m) es →
  isStart n = bool_decide (Some (node_id n) = sn).
Proof.
  intros Hk Hn'. apply createLayout_elem_of in Hn' as (n0 & Hn & Hid & _ & Hcls).
  apply elem_of_values in Hn as [k Hkn]. destruct (Hk k n0 Hkn) as [<- Hc].
  unfold isStart. rewrite Hcls, Hc, Hid.
  by destruct (bool_decide (Some (node_id n0) = sn)).
Qed.

(** Distinct ids and an id-determined start flag give at most one start
    node, and exactly one when the start id occurs. *)
Lemma start_nodes_some (g : Graph) (s : string) :
  NoDup (node_ids g) →
  (∀ n, n ∈ nodes g → isStart n = bool_decide (Some (node_id n) = Some s)) →
  s ∈ node_ids g →
  unique_start g s.
Proof.
  intros Hnd Hst Hin. apply filter_isStart_singleton; [done| |done].
  intros n Hn. rewrite (Hst n Hn). apply bool_decide_ext. split; congruence.
Qed.

Lemma start_nodes_none (g : Graph) :
  (∀ n, n ∈ nodes g → isStart n = false) → start_nodes g = [].
Proof. apply filter_isStart_nil. Qed.

Section edge_loop.
Context {A : Type} (key : A → string) (val : A → Edge).
Hypothesis val_id : ∀ a, edge_id (val a) = key a.
Hypothesis val_arrow :
  ∀ a, key a = Js.arrow (edge_source (val a)) (edge_target (val a)).

Lemma edge_ids_fill l :
  edge_id <$> JsMap.values (JsMap.fill key val l JsMap.empty)
  = JsMap.keys (JsMap.fill key val l JsMap.empty).
Proof.
  apply keyed_values. intros k e H.
  apply elem_of_fill_inv in H as [H|(a & _ & -> & ->)]; [|done].
  by apply elem_of_nil in H.
Qed.

Lemma elem_of_values_fill l e :
  e ∈ JsMap.values (JsMap.fill key val l JsMap.empty) ↔
  ∃ a, List.find (λ a', bool_decide (key a' = key a)) l = Some a ∧ e = val a.
Proof.
  rewrite elem_of_values. split.
  - intros (k & H). apply elem_of_fill in H as (a & Hfind & ->).
    exists a. split; [|done].
    pose proof (find_some _ _ Hfind) as [_ Hk].
    apply bool_decide_eq_true in Hk. by rewrite Hk.
  - intros (a & Hfind & ->). exists (key a). apply elem_of_fill. by exists a.
Qed.

Lemma edges_deduplicated_fill ns l :
  edges_deduplicated
    {| nodes := ns; edges := JsMap.values (JsMap.fill key val l JsMap.empty) |}.
Proof.
  assert (Hnd : NoDup (edge_id <$> JsMap.values (JsMap.fill key val l JsMap.empty))).
  { rewrite edge_ids_fill. apply NoDup_keys_fill, NoDup_nil_2. }
  assert (Hid : ∀ e, e ∈ JsMap.values (JsMap.fill key val l JsMap.empty) →
                     edge_id e = Js.arrow (edge_source e) (edge_target e)).
  { intros e He. apply elem_of_values_fill in He as (a & _ & ->).
    by rewrite val_id, val_arrow. }
  split_and!; [done|done|]. simpl. intros i j e1 e2 H1 H2 Hs Ht.
  eapply NoDup_lookup; [exact Hnd| |].
  - rewrite list_lookup_fmap, H1. reflexivity.
  - rewrite list_lookup_fmap, H2. simpl. f_equal.
    rewrite (Hid e1), (Hid e2), Hs, Ht; [done| |].
    + eapply list_elem_of_lookup_2. exact H2.
    + eapply list_elem_of_lookup_2. exact H1.
Qed.

Lemma edge_ids_fill_elem_of l i :
  i ∈ edge_id <$> JsMap.values (JsMap.fill key val l JsMap.empty) ↔ i ∈ key <$> l.
Proof. rewrite edge_ids_fill. apply elem_of_keys_fill. Qed.

End edge_loop.


Section explicit.
Context {N E : Type}.
Context (nodeKey : N → string) (nodeVal : N → Node) (sn : option string).
Context (edgeKey : E → string) (edgeVal : E → Edge).
Hypothesis nodeVal_id : ∀ a, node_id (nodeVal a) = nodeKey a.
Hypothesis nodeVal_class :
  ∀ a, node_className (nodeVal a)
       = classNameOf (bool_decide (Some (nodeKey a) = sn)).
Hypothesis edgeVal_id : ∀ a, edge_id (edgeVal a) = edgeKey a.
Hypothesis edgeVal_arrow :
  ∀ a, edgeKey a = Js.arrow (edge_source (edgeVal a)) (edge_target (edgeVal a)).

Local Abbreviation build := (Shape.build nodeKey nodeVal edgeKey edgeVal).

Lemma build_node_ids dagre ns es :
  node_ids (build dagre ns es)
  = JsMap.keys (JsMap.overwrite nodeKey nodeVal ns JsMap.empty).
Proof.
  unfold node_ids, Shape.build. simpl.
  apply (keyed_layout_ids sn), keyed_overwrite; done.
Qed.

Lemma build_node_ids_NoDup dagre ns es : NoDup (node_ids (build dagre ns es)).
Proof. rewrite build_node_ids. apply NoDup_keys_overwrite, NoDup_nil_2. Qed.

Lemma build_elem_of_node_ids dagre ns es i :
  i ∈ node_ids (build dagre ns es) ↔ i ∈ nodeKey <$> ns.
Proof.
  rewrite build_node_ids, elem_of_keys_overwrite. split; [|by right].
  intros [H|H]; [by apply elem_of_nil in H | done].
Qed.

Lemma build_isStart dagre ns es n :
  n ∈ nodes (build dagre ns es) →
  isStart n = bool_decide (Some (node_id n) = sn).
Proof. apply keyed_layout_isStart, keyed_overwrite; done. Qed.

Lemma build_elem_of_edges dagre ns es e :
  e ∈ edges (build dagre ns es) ↔
  ∃ a, List.find (λ a', bool_decide (edgeKey a' = edgeKey a)) es = Some a
       ∧ e = edgeVal a.
Proof. apply elem_of_values_fill. Qed.

Lemma build_edges_deduplicated dagre ns es :
  edges_deduplicated (build dagre ns es).
Proof. by apply edges_deduplicated_fill. Qed.

Lemma build_elem_of_edge_ids dagre ns es i :
  i ∈ edge_ids (build dagre ns es) ↔ i ∈ edgeKey <$> es.
Proof. by apply edge_ids_fill_elem_of. Qed.

Lemma build_no_nodes dagre es : nodes (build dagre [] es) = [].
Proof. reflexivity. Qed.

(** A start id that names an input node selects exactly one built node;
    without a start id nothing is selected. *)
Lemma build_unique_start dagre ns es s :
  sn = Some s → s ∈ nodeKey <$> ns → unique_start (build dagre ns es) s.
Proof.
  intros Hsn Hin. apply start_nodes_some.
  - apply build_node_ids_NoDup.
  - intros n Hn. rewrite <- Hsn. by eapply build_isStart.
  - by apply build_elem_of_node_ids.
Qed.

Lemma build_no_start dagre ns es :
  sn = None → start_nodes (build dagre ns es) = [].
Proof.
  intros Hsn. apply start_nodes_none. intros n Hn.
  rewrite (build_isStart _ _ _ _ Hn). apply bool_decide_eq_false_2.
  by rewrite Hsn.
Qed.

End explicit.

End BuilderFacts.

(** * The trace-list builder as two map-filling loops *)

Module Part000Facts.
Import ReactFlow Layout Part000 JsMapFacts.

Lemma traces_visit_split sp l pages edgeMap i step :
  visit sp l (pages, edgeMap) i step =
    (JsMap.add_if_absent (page step) (pageNode sp step) pages,
     match step_pair (step, l !! (i + 1)%nat) with
     | Some p => JsMap.add_if_absent (edgeKey p) (transitionEdge p) edgeMap
     | None => edgeMap
     end).
Proof.
  unfold visit, step_pair, JsMap.add_if_absent, pageNode. simpl.
  f_equal. destruct (l !! (i + 1)%nat) as [next|]; [|done].
  destruct (negb (String.eqb (page next) (page step))); done.
Qed.

Lemma traces_forEach_from_visit sp (all : list Step) :
  ∀ (l : list Step) (i : nat) pages edgeMap,
    drop i all = l →
    Js.forEach_from (visit sp all) i l (pages, edgeMap) =
      (JsMap.fill page (pageNode sp) l pages,
       JsMap.fill edgeKey transitionEdge (transitions l) edgeMap).
Proof.
  induction l as [|s l IH]; intros i pages edgeMap Hdrop; [done|].
  change (Js.forEach_from (visit sp all) i (s :: l) (pages, edgeMap))
    with (Js.forEach_from (visit sp all) (S i) l
            (visit sp all (pages, edgeMap) i s)).
  assert (Hl : drop (S i) all = l).
  { replace (S i) with (i + 1)%nat by lia. by rewrite <- drop_drop, Hdrop. }
  rewrite traces_visit_split, (IH (S i)) by done.
  assert (Hnext : all !! (i + 1)%nat = head l).
  { rewrite <- Hl, Nat.add_1_r. rewrite <- (Nat.add_0_r (S i)) at 1.
    rewrite <- lookup_drop. by destruct (drop (S i) all). }
  rewrite Hnext. unfold transitions.
  change (Js.with_next (s :: l)) with ((s, head l) :: Js.with_next l).
  rewrite JsMapFacts.fill_cons.
  change (omap step_pair ((s, head l) :: Js.with_next l))
    with (match step_pair (s, head l) with
          | Some p => p :: omap step_pair (Js.with_next l)
          | None => omap step_pair (Js.with_next l)
          end).
  destruct (step_pair (s, head l)) as [p|]; [|done].
  by rewrite JsMapFacts.fill_cons.
Qed.

Lemma traces_forEach_cases sp cases pages edgeMap :
  Js.forEach
    (λ st testCase,
       Js.forEach_indexed (visit sp (steps testCase)) (steps testCase) st)
    cases (pages, edgeMap)
  = (JsMap.fill page (pageNode sp) (allSteps cases) pages,
     JsMap.fill edgeKey transitionEdge (allTransitions cases) edgeMap).
Proof.
  unfold Js.forEach, allSteps, allTransitions.
  revert pages edgeMap. induction cases as [|c cases IH]; intros pages edgeMap.
  - done.
  - simpl. unfold Js.forEach_indexed.
    rewrite (traces_forEach_from_visit sp (steps c) (steps c) 0) by done.
    rewrite IH, !JsMapFacts.fill_app. done.
Qed.

(** The builder's two maps in closed form. *)
Lemma traces_buildMaps_fill cases :
  buildMaps cases =
    (JsMap.fill page (pageNode (startPage cases)) (allSteps cases) JsMap.empty,
     JsMap.fill edgeKey transitionEdge (allTransitions cases) JsMap.empty).
Proof. unfold buildMaps. apply traces_forEach_cases. Qed.


Lemma traces_elem_of_transitions (l : list Step) (a b : string) :
  (a, b) ∈ transitions l ↔
  ∃ (i : nat) (s n : Step),
    l !! i = Some s ∧ l !! (i + 1)%nat = Some n ∧ page s = a ∧ page n = b ∧ a ≠ b.
Proof.
  unfold transitions. rewrite list_elem_of_omap. split.
  - intros ([s on] & Hin & Hpair). unfold step_pair in Hpair. simpl in Hpair.
    destruct on as [n|]; [|done].
    destruct (String.eqb_spec (page n) (page s)) as [|Hne]; simpl in Hpair; [done|].
    injection Hpair as <- <-.
    apply JsFacts.elem_of_with_next in Hin as (i & Hs & Hn).
    exists i, s, n. split_and!; [done..|]. congruence.
  - intros (i & s & n & Hs & Hn & <- & <- & Hne).
    exists (s, Some n). split.
    + apply JsFacts.elem_of_with_next. by exists i.
    + unfold step_pair. simpl.
      destruct (String.eqb_spec (page n) (page s)) as [Heq|]; [congruence|done].
Qed.

Lemma traces_elem_of_allTransitions (cases : list TestCase) (a b : string) :
  (a, b) ∈ allTransitions cases ↔ ∃ c, c ∈ cases ∧ transition c a b.
Proof.
  unfold allTransitions, transition. rewrite JsFacts.elem_of_concat. split.
  - intros (l & Hin & Hl). apply list_elem_of_fmap in Hl as (c & -> & Hc).
    exists c. split; [done|]. by apply traces_elem_of_transitions.
  - intros (c & Hc & Ht). exists (transitions (steps c)). split.
    + by apply traces_elem_of_transitions.
    + apply list_elem_of_fmap. by exists c.
Qed.

Lemma traces_elem_of_allSteps (cases : list TestCase) (s : Step) :
  s ∈ allSteps cases ↔ ∃ c, c ∈ cases ∧ s ∈ steps c.
Proof.
  unfold allSteps. rewrite JsFacts.elem_of_concat. split.
  - intros (l & Hin & Hl). apply list_elem_of_fmap in Hl as (c & -> & Hc). eauto.
  - intros (c & Hc & Hs). exists (steps c). split; [done|].
    apply list_elem_of_fmap. by exists c.
Qed.


Lemma traces_buildGraph_unfold dagre cases :
  buildGraph dagre cases =
    let pages := JsMap.fill page (pageNode (startPage cases)) (allSteps cases)
                   JsMap.empty in
    let edgeMap := JsMap.fill edgeKey transitionEdge (allTransitions cases)
                     JsMap.empty in
    {| nodes := createLayout dagre (JsMap.values pages) (JsMap.values edgeMap);
       edges := JsMap.values edgeMap |}.
Proof. unfold buildGraph. by rewrite traces_buildMaps_fill. Qed.

Lemma traces_pages_keyed cases :
  keyed_nodes (startPage cases)
    (JsMap.fill page (pageNode (startPage cases)) (allSteps cases) JsMap.empty).
Proof. apply BuilderFacts.keyed_fill; intros s; reflexivity. Qed.

Lemma traces_node_ids_NoDup dagre cases : NoDup (node_ids (buildGraph dagre cases)).
Proof.
  rewrite traces_buildGraph_unfold. unfold node_ids. simpl.
  rewrite (BuilderFacts.keyed_layout_ids _ _ _ _ (traces_pages_keyed cases)).
  apply NoDup_keys_fill, NoDup_nil_2.
Qed.

Lemma traces_elem_of_node_ids dagre cases i :
  i ∈ node_ids (buildGraph dagre cases) ↔
  ∃ c s, c ∈ cases ∧ s ∈ steps c ∧ page s = i.
Proof.
  rewrite traces_buildGraph_unfold. unfold node_ids. simpl.
  rewrite (BuilderFacts.keyed_layout_ids _ _ _ _ (traces_pages_keyed cases)).
  rewrite elem_of_keys_fill, list_elem_of_fmap. split.
  - intros (s & -> & Hs). apply traces_elem_of_allSteps in Hs as (c & Hc & Hs). eauto.
  - intros (c & s & Hc & Hs & <-). exists s. split; [done|].
    apply traces_elem_of_allSteps. eauto.
Qed.

Lemma traces_isStart_nodes dagre cases n :
  n ∈ nodes (buildGraph dagre cases) →
  isStart n = bool_decide (Some (node_id n) = startPage cases).
Proof.
  rewrite traces_buildGraph_unfold. simpl.
  apply BuilderFacts.keyed_layout_isStart, traces_pages_keyed.
Qed.

Lemma traces_elem_of_edges dagre cases e :
  e ∈ edges (buildGraph dagre cases) ↔
  ∃ p, List.find (λ p', bool_decide (edgeKey p' = edgeKey p)) (allTransitions cases)
         = Some p ∧ e = transitionEdge p.
Proof.
  rewrite traces_buildGraph_unfold. simpl. apply BuilderFacts.elem_of_values_fill.
Qed.

Lemma traces_edge_from_transition dagre cases e :
  e ∈ edges (buildGraph dagre cases) →
  ∃ c, c ∈ cases ∧ transition c (edge_source e) (edge_target e).
Proof.
  intros He. apply traces_elem_of_edges in He as ([a b] & Hfind & ->).
  apply find_some in Hfind as [Hin _]. apply list_elem_of_In in Hin.
  by apply traces_elem_of_allTransitions in Hin.
Qed.

Lemma traces_edges_deduplicated_buildGraph dagre cases :
  edges_deduplicated (buildGraph dagre cases).
Proof.
  rewrite traces_buildGraph_unfold. simpl.
  apply (BuilderFacts.edges_deduplicated_fill edgeKey transitionEdge);
    intros p; reflexivity.
Qed.

Lemma traces_transition_edge_id dagre cases c a b :
  c ∈ cases → transition c a b →
  Js.arrow a b ∈ edge_ids (buildGraph dagre cases).
Proof.
  intros Hc Ht. rewrite traces_buildGraph_unfold. unfold edge_ids. simpl.
  rewrite (BuilderFacts.edge_ids_fill_elem_of edgeKey transitionEdge)
    by (intros p; reflexivity).
  apply list_elem_of_fmap. exists (a, b). split; [done|].
  apply traces_elem_of_allTransitions. eauto.
Qed.

Lemma traces_transition_pages c a b :
  transition c a b →
  (∃ s, s ∈ steps c ∧ page s = a) ∧ (∃ n, n ∈ steps c ∧ page n = b) ∧ a ≠ b.
Proof.
  intros (i & s & n & Hs & Hn & Ha & Hb & Hne). split_and!; [| |done].
  - exists s. split; [by eapply list_elem_of_lookup_2 | done].
  - exists n. split; [by eapply list_elem_of_lookup_2 | done].
Qed.


Lemma traces_no_self_loop_buildGraph dagre cases :
  no_self_loop (buildGraph dagre cases).
Proof.
  intros e He. apply traces_edge_from_transition in He as (c & _ & Ht).
  by apply traces_transition_pages in Ht as (_ & _ & Hne).
Qed.

Lemma traces_no_dangling_buildGraph dagre cases : no_dangling (buildGraph dagre cases).
Proof.
  intros e He. apply traces_edge_from_transition in He as (c & Hc & Ht).
  apply traces_transition_pages in Ht as ((s & Hs & Hps) & (n & Hn & Hpn) & _).
  split; apply traces_elem_of_node_ids; eauto.
Qed.

Lemma traces_no_steps cases :
  (∀ c, c ∈ cases → steps c = []) →
  allSteps cases = [] ∧ allTransitions cases = [].
Proof.
  unfold allSteps, allTransitions.
  induction cases as [|c cases IH]; intros H; [done|].
  rewrite !fmap_cons. simpl.
  rewrite (H c) by (apply elem_of_cons; by left). simpl.
  apply IH. intros c' Hc'. apply H, elem_of_cons. by right.
Qed.

Lemma traces_no_steps_empty_graph dagre cases :
  (∀ c, c ∈ cases → steps c = []) →
  buildGraph dagre cases = {| nodes := []; edges := [] |}.
Proof.
  intros H. rewrite traces_buildGraph_unfold.
  destruct (traces_no_steps cases H) as [-> ->]. reflexivity.
Qed.


Lemma traces_startPage_Some cases c s :
  cases !! 0%nat = Some c → steps c !! 0%nat = Some s →
  startPage cases = Some (page s).
Proof. unfold startPage. intros -> . simpl. intros ->. done. Qed.

Lemma traces_unique_start dagre cases c s :
  cases !! 0%nat = Some c → steps c !! 0%nat = Some s →
  unique_start (buildGraph dagre cases) (page s).
Proof.
  intros Hc Hs. apply BuilderFacts.start_nodes_some.
  - apply traces_node_ids_NoDup.
  - intros n Hn. rewrite <- (traces_startPage_Some cases c s Hc Hs).
    by eapply traces_isStart_nodes.
  - apply traces_elem_of_node_ids. exists c, s.
    split_and!; [by eapply list_elem_of_lookup_2.. | done].
Qed.

Lemma traces_no_start dagre cases :
  startPage cases = None → start_nodes (buildGraph dagre cases) = [].
Proof.
  intros Hnone. apply BuilderFacts.start_nodes_none. intros n Hn.
  rewrite (traces_isStart_nodes _ _ _ Hn). apply bool_decide_eq_false_2.
  by rewrite Hnone.
Qed.

End Part000Facts.

(** * The two explicit-graph builders *)

Module AppTsxFacts.
Import ReactFlow Layout AppTsx JsMapFacts.

Lemma app_buildGraph_shape dagre graph :
  buildGraph dagre graph
  = Shape.build id (builtNode (startNode graph)) edgeKey builtEdge
      dagre (nodes graph) (edges graph).
Proof. reflexivity. Qed.

Lemma app_startNode_elem_of graph :
  nodes graph ≠ [] →
  ∃ n, nodes graph !! 0%nat = Some n ∧ startNode graph = Some (id n)
       ∧ id n ∈ id <$> nodes graph.
Proof.
  unfold startNode. destruct (nodes graph) as [|n ns]; [done|]. intros _.
  exists n. split_and!; [done..|]. rewrite fmap_cons. apply elem_of_cons. by left.
Qed.


(** *** The highlight resolver *)

Lemma app_addPair_contribution path edgeIds index nodeId :
  addPair path edgeIds index nodeId
  = contribution nodeId (path !! (index + 1)%nat) ∪ edgeIds.
Proof.
  unfold addPair, contribution. destruct (path !! (index + 1)%nat) as [next|].
  - destruct (Js.truthy_string next); [done|]. by rewrite (left_id_L ∅ (∪)).
  - by rewrite (left_id_L ∅ (∪)).
Qed.

Lemma app_elem_of_fold_contribution (w : list (string * option string))
    (s : gset string) (i : string) :
  i ∈ fold_left (λ s p, contribution p.1 p.2 ∪ s) w s ↔
  i ∈ s ∨ ∃ a b, (a, Some b) ∈ w ∧ b ≠ "" ∧ i = Js.arrow a b.
Proof.
  revert s. induction w as [|[a ob] w IH]; intros s; simpl.
  - split; [by left|]. intros [?|(a & b & H & _)]; [done|]. by apply elem_of_nil in H.
  - rewrite IH, elem_of_union. split.
    + intros [[Hc|Hs]|(a' & b' & Hin & Hb & ->)].
      * right. unfold contribution in Hc. destruct ob as [b|]; [|set_solver].
        destruct (Js.truthy_string b) eqn:Eb; [|set_solver].
        apply JsFacts.truthy_string_spec in Eb.
        exists a, b. split_and!; [apply elem_of_cons; by left | done | set_solver].
      * by left.
      * right. exists a', b'. split_and!; [apply elem_of_cons; by right | done..].
    + intros [Hs|(a' & b' & Hin & Hb & ->)]; [left; by right|].
      apply elem_of_cons in Hin as [[= -> <-]|Hin].
      * left. left. unfold contribution.
        apply JsFacts.truthy_string_spec in Hb. rewrite Hb. set_solver.
      * right. exists a', b'. done.
Qed.

Lemma app_forEach_from_addPair path (l : list string) :
  ∀ (i : nat) (s : gset string),
    Js.forEach_from (addPair path) i l s
    = Js.forEach_from (λ s i x, contribution x (path !! (i + 1)%nat) ∪ s) i l s.
Proof.
  induction l as [|x l IH]; intros i s; simpl; [done|].
  by rewrite app_addPair_contribution, IH.
Qed.

Lemma app_edgeIds_fold path :
  edgeIds (buildHighlightSet path)
  = fold_left (λ s p, contribution p.1 p.2 ∪ s) (Js.with_next path) ∅.
Proof.
  unfold buildHighlightSet, Js.forEach_indexed. simpl.
  rewrite app_forEach_from_addPair.
  by rewrite (JsFacts.forEach_from_with_next
                (λ s x on, contribution x on ∪ s) path path 0 ∅ eq_refl).
Qed.

(** The edge-id set holds exactly the ids of the consecutive pairs of
    the path whose second element is not the empty string. *)
Lemma app_elem_of_edgeIds path i :
  i ∈ edgeIds (buildHighlightSet path) ↔
  ∃ (k : nat) a b,
    path !! k = Some a ∧ path !! (k + 1)%nat = Some b ∧ b ≠ "" ∧ i = Js.arrow a b.
Proof.
  rewrite app_edgeIds_fold, app_elem_of_fold_contribution. split.
  - intros [H|(a & b & Hin & Hb & ->)]; [set_solver|].
    apply JsFacts.elem_of_with_next in Hin as (k & Ha & Hb').
    exists k, a, b. done.
  - intros (k & a & b & Ha & Hb' & Hb & ->). right. exists a, b.
    split_and!; [|done..]. apply JsFacts.elem_of_with_next. by exists k.
Qed.

Lemma app_elem_of_nodeIds path i : i ∈ nodeIds (buildHighlightSet path) ↔ i ∈ path.
Proof. unfold buildHighlightSet. simpl. apply elem_of_list_to_set. Qed.

(** *** The render overlays *)

Lemma app_renderNodes_ids baseNodes h :
  node_id <$> renderNodes baseNodes h = node_id <$> baseNodes.
Proof.
  destruct h as [h|]; simpl; [|done].
  rewrite <- list_fmap_compose. by apply list_fmap_ext.
Qed.

Lemma app_renderEdges_ids baseEdges h :
  edge_id <$> renderEdges baseEdges h = edge_id <$> baseEdges.
Proof.
  destruct h as [h|]; simpl; [|done].
  rewrite <- list_fmap_compose. by apply list_fmap_ext.
Qed.

Lemma app_renderNodes_elem_of baseNodes h n' :
  n' ∈ renderNodes baseNodes (Some h) →
  ∃ n, n ∈ baseNodes ∧ node_id n' = node_id n
    ∧ node_className n' =
        (node_className n ++ " " ++
         (if bool_decide (node_id n ∈ nodeIds h)
          then "ring-2 ring-sky-400 ring-offset-2 ring-offset-slate-950"
          else ""))%string.
Proof.
  simpl. intros H. apply list_elem_of_fmap in H as (n & -> & Hn). by exists n.
Qed.

Lemma app_renderEdges_elem_of baseEdges h e' :
  e' ∈ renderEdges baseEdges (Some h) →
  ∃ e, e ∈ baseEdges ∧ edge_id e' = edge_id e
    ∧ edge_source e' = edge_source e ∧ edge_target e' = edge_target e
    ∧ stroke (edge_style e') =
        (if bool_decide (edge_id e ∈ edgeIds h) then "#38bdf8" else "#334155").
Proof.
  simpl. intros H. apply list_elem_of_fmap in H as (e & -> & He). by exists e.
Qed.


Lemma app_elem_of_edges dagre graph e :
  e ∈ ReactFlow.edges (buildGraph dagre graph) ↔
  ∃ a, first_with_id (edges graph) a ∧ e = builtEdge a.
Proof. rewrite app_buildGraph_shape. apply BuilderFacts.build_elem_of_edges. Qed.

Lemma app_elem_of_edge_ids dagre graph i :
  i ∈ edge_ids (buildGraph dagre graph) ↔ i ∈ edgeKey <$> edges graph.
Proof.
  rewrite app_buildGraph_shape.
  apply BuilderFacts.build_elem_of_edge_ids; intros; reflexivity.
Qed.

Lemma app_edges_deduplicated_buildGraph dagre graph :
  edges_deduplicated (buildGraph dagre graph).
Proof.
  rewrite app_buildGraph_shape.
  apply BuilderFacts.build_edges_deduplicated; intros; reflexivity.
Qed.

Lemma app_node_ids_NoDup dagre graph : NoDup (node_ids (buildGraph dagre graph)).
Proof.
  rewrite app_buildGraph_shape.
  eapply BuilderFacts.build_node_ids_NoDup; intros; reflexivity.
Qed.

Lemma app_elem_of_node_ids dagre graph i :
  i ∈ node_ids (buildGraph dagre graph) ↔ i ∈ id <$> nodes graph.
Proof.
  rewrite app_buildGraph_shape.
  eapply BuilderFacts.build_elem_of_node_ids; intros; reflexivity.
Qed.

Lemma app_unique_start_buildGraph dagre graph s :
  startNode graph = Some s → s ∈ id <$> nodes graph →
  unique_start (buildGraph dagre graph) s.
Proof.
  intros Hs Hin. rewrite app_buildGraph_shape.
  eapply BuilderFacts.build_unique_start; [intros; reflexivity..|done|done].
Qed.

Lemma app_no_nodes_buildGraph dagre graph :
  nodes graph = [] →
  ReactFlow.nodes (buildGraph dagre graph) = []
  ∧ start_nodes (buildGraph dagre graph) = [].
Proof. rewrite app_buildGraph_shape. intros ->. done. Qed.

Lemma app_edge_endpoints_from_input dagre graph e :
  e ∈ ReactFlow.edges (buildGraph dagre graph) →
  ∃ a, a ∈ edges graph ∧ edge_source e = source a ∧ edge_target e = target a.
Proof.
  intros He. apply app_elem_of_edges in He as (a & Hfind & ->).
  exists a. split; [|done]. apply find_some in Hfind as [Hin _].
  by apply list_elem_of_In.
Qed.

Lemma app_first_with_id_head a rest : first_with_id (a :: rest) a.
Proof. unfold first_with_id. simpl. by rewrite bool_decide_eq_true_2. Qed.

End AppTsxFacts.

Module Part001Facts.
Import ReactFlow Layout Part001 JsMapFacts.

Lemma entry_buildGraph_shape dagre graph :
  buildGraph dagre graph
  = Shape.build id (builtNode (startNode graph)) edgeKey builtEdge
      dagre (nodes graph) (edges graph).
Proof. reflexivity. Qed.

(** [entryNode] is the id of the first node whose [entryPoint] is truthy. *)
Lemma entry_entryNode_Some graph i :
  entryNode graph = Some i ↔
  ∃ (k : nat) n, nodes graph !! k = Some n ∧ entryPoint n = true ∧ id n = i
    ∧ ∀ (j : nat) m, (j < k)%nat → nodes graph !! j = Some m → entryPoint m = false.
Proof.
  unfold entryNode. induction (nodes graph) as [|n ns IH]; simpl.
  - split; [done | intros (k & n & H & _); done].
  - destruct (entryPoint n) eqn:En; simpl.
    + split.
      * intros [= <-]. exists 0%nat, n. split_and!; [done..|]. intros j m Hj. lia.
      * intros ([|k] & n' & Hk & Hn' & <- & Hbefore); simpl in Hk.
        -- congruence.
        -- specialize (Hbefore 0%nat n ltac:(lia) eq_refl). congruence.
    + rewrite IH. split.
      * intros (k & n' & Hk & Hn' & Hid & Hbefore). exists (S k), n'.
        split_and!; [done..|]. intros [|j] m Hj Hm; simpl in Hm.
        -- congruence.
        -- apply (Hbefore j); [lia|done].
      * intros ([|k] & n' & Hk & Hn' & Hid & Hbefore); simpl in Hk.
        -- congruence.
        -- exists k, n'. split_and!; [done..|]. intros j m Hj Hm.
           apply (Hbefore (S j)); [lia|done].
Qed.

Lemma entry_entryNode_None graph :
  entryNode graph = None ↔ ∀ n, n ∈ nodes graph → entryPoint n = false.
Proof.
  unfold entryNode. destruct (List.find entryPoint (nodes graph)) as [n|] eqn:E; simpl.
  - split; [done|]. intros H. apply find_some in E as [Hin Hn].
    apply list_elem_of_In in Hin. rewrite (H n Hin) in Hn. done.
  - split; [|done]. intros _ n Hin. apply list_elem_of_In in Hin.
    by apply (find_none _ _ E).
Qed.

Lemma entry_startNode_elem_of graph :
  nodes graph ≠ [] →
  ∃ s, startNode graph = Some s ∧ s ∈ id <$> nodes graph.
Proof.
  unfold startNode. intros Hne. destruct (entryNode graph) as [i|] eqn:E.
  - exists i. split; [done|].
    apply entry_entryNode_Some in E as (k & n & Hk & _ & <- & _).
    apply list_elem_of_fmap. exists n. split; [done|].
    by eapply list_elem_of_lookup_2.
  - destruct (nodes graph) as [|n ns]; [done|]. exists (id n). split; [done|].
    rewrite fmap_cons. apply elem_of_cons. by left.
Qed.


Lemma entry_elem_of_edges dagre graph e :
  e ∈ ReactFlow.edges (buildGraph dagre graph) ↔
  ∃ a, first_with_id (edges graph) a ∧ e = builtEdge a.
Proof. rewrite entry_buildGraph_shape. apply BuilderFacts.build_elem_of_edges. Qed.

Lemma entry_elem_of_edge_ids dagre graph i :
  i ∈ edge_ids (buildGraph dagre graph) ↔ i ∈ edgeKey <$> edges graph.
Proof.
  rewrite entry_buildGraph_shape.
  apply BuilderFacts.build_elem_of_edge_ids; intros; reflexivity.
Qed.

Lemma entry_edges_deduplicated_buildGraph dagre graph :
  edges_deduplicated (buildGraph dagre graph).
Proof.
  rewrite entry_buildGraph_shape.
  apply BuilderFacts.build_edges_deduplicated; intros; reflexivity.
Qed.

Lemma entry_node_ids_NoDup dagre graph : NoDup (node_ids (buildGraph dagre graph)).
Proof.
  rewrite entry_buildGraph_shape.
  eapply BuilderFacts.build_node_ids_NoDup; intros; reflexivity.
Qed.

Lemma entry_elem_of_node_ids dagre graph i :
  i ∈ node_ids (buildGraph dagre graph) ↔ i ∈ id <$> nodes graph.
Proof.
  rewrite entry_buildGraph_shape.
  eapply BuilderFacts.build_elem_of_node_ids; intros; reflexivity.
Qed.

Lemma entry_unique_start_buildGraph dagre graph s :
  startNode graph = Some s → s ∈ id <$> nodes graph →
  unique_start (buildGraph dagre graph) s.
Proof.
  intros Hs Hin. rewrite entry_buildGraph_shape.
  eapply BuilderFacts.build_unique_start; [intros; reflexivity..|done|done].
Qed.

Lemma entry_no_nodes_buildGraph dagre graph :
  nodes graph = [] →
  ReactFlow.nodes (buildGraph dagre graph) = []
  ∧ start_nodes (buildGraph dagre graph) = [].
Proof. rewrite entry_buildGraph_shape. intros ->. done. Qed.

Lemma entry_edge_endpoints_from_input dagre graph e :
  e ∈ ReactFlow.edges (buildGraph dagre graph) →
  ∃ a, a ∈ edges graph ∧ edge_source e = source a ∧ edge_target e = target a.
Proof.
  intros He. apply entry_elem_of_edges in He as (a & Hfind & ->).
  exists a. split; [|done]. apply find_some in Hfind as [Hin _].
  by apply list_elem_of_In.
Qed.

Lemma entry_first_with_id_head a rest : first_with_id (a :: rest) a.
Proof. unfold first_with_id. simpl. by rewrite bool_decide_eq_true_2. Qed.


Lemma entry_find_ext {A : Type} (P Q : A → bool) (l : list A) :
  (∀ x, x ∈ l → P x = Q x) → List.find P l = List.find Q l.
Proof.
  induction l as [|x l IH]; intros H; simpl; [done|].
  rewrite (H x) by (apply elem_of_cons; by left).
  destruct (Q x); [done|]. apply IH. intros y Hy. apply H, elem_of_cons. by right.
Qed.

(** Without another pair of the same id, the first edge of a pair is
    the first edge of its id. *)
Lemma entry_first_with_pair_id es a :
  first_with_pair es a →
  (∀ a', a' ∈ es → edgeKey a' = edgeKey a →
         source a' = source a ∧ target a' = target a) →
  first_with_id es a.
Proof.
  unfold first_with_pair, first_with_id. intros Hfind Hinj. rewrite <- Hfind.
  apply entry_find_ext. intros a' Ha'. apply bool_decide_ext. split.
  - by apply Hinj.
  - intros [Hs Ht]. unfold edgeKey. by rewrite Hs, Ht.
Qed.

Lemma entry_startNode_flagged graph before x after :
  nodes graph = before ++ x :: after →
  entryPoint x = true →
  (∀ m, m ∈ before → entryPoint m = false) →
  startNode graph = Some (id x).
Proof.
  intros Hnodes Hx Hbefore. unfold startNode.
  assert (entryNode graph = Some (id x)) as ->; [|done].
  apply entry_entryNode_Some. exists (length before), x. split_and!; [|done..|].
  - rewrite Hnodes. by apply list_lookup_middle.
  - intros j m Hj Hm. apply Hbefore. rewrite Hnodes in Hm.
    rewrite lookup_app_l in Hm by done. by eapply list_elem_of_lookup_2.
Qed.

Lemma entry_startNode_unflagged graph first rest :
  nodes graph = first :: rest →
  (∀ m, m ∈ nodes graph → entryPoint m = false) →
  startNode graph = Some (id first).
Proof.
  intros Hnodes Hnone. unfold startNode.
  apply entry_entryNode_None in Hnone. rewrite Hnone, Hnodes. done.
Qed.

End Part001Facts.

(** * The properties of the specification *)

Module Properties.
Import ReactFlow Layout.

(** ** Worked examples *)

Example mockCases_nodes :
  node_ids (Part000.buildGraph dagre_origin Part000.mockCases)
  = ["/login"; "/dashboard"; "/forgot-password"; "/reset"; "/signup"; "/welcome"].
Proof. vm_compute. reflexivity. Qed.

Example mockCases_edges :
  edge_ids (Part000.buildGraph dagre_origin Part000.mockCases)
  = ["/login->/dashboard"; "/login->/forgot-password";
     "/forgot-password->/reset"; "/signup->/welcome"].
Proof. vm_compute. reflexivity. Qed.

Example mockCases_start :
  node_id <$> start_nodes (Part000.buildGraph dagre_origin Part000.mockCases)
  = ["/login"].
Proof. vm_compute. reflexivity. Qed.

Example scenario1_graph :
  let g := Part000.buildGraph dagre_origin Part000.scenario1 in
  node_ids g = ["A"; "B"; "C"; "D"]
  ∧ edge_ids g = ["A->B"; "B->C"; "A->D"; "D->C"]
  ∧ node_id <$> start_nodes g = ["A"].
Proof. vm_compute. done. Qed.

Example mockGraph_built :
  let g := AppTsx.buildGraph dagre_origin AppTsx.mockGraph in
  node_ids g = ["/login"; "/cart"; "/checkout"; "/thank-you"; "/inventory";
                "/dashboard"]
  ∧ edge_ids g = ["/login->/dashboard"; "/login->/cart"; "/cart->/checkout";
                  "/checkout->/thank-you"; "/inventory->/checkout"]
  ∧ node_id <$> start_nodes g = ["/login"].
Proof. vm_compute. done. Qed.

Example flaggedSecond_built :
  let g := Part001.buildGraph dagre_origin Part001.flaggedSecond in
  node_ids g = ["Y"; "X"] ∧ node_id <$> start_nodes g = ["X"].
Proof. vm_compute. done. Qed.

Example scenario3_highlight :
  AppTsx.buildHighlightSet ["A"; "B"; "C"]
  = {| AppTsx.nodeIds := {[ "A"; "B"; "C" ]};
       AppTsx.edgeIds := {[ "A->B"; "B->C" ]} |}.
Proof. vm_compute. reflexivity. Qed.

(** ** What the layout can change *)

(** Whatever dagre answers, the three builders produce the same edges, the
    same node ids in the same order and the same start classes: the layout
    decides positions only. *)
Theorem layout_decides_positions_only (d1 d2 : Dagre) :
  (∀ cases,
     edges (Part000.buildGraph d1 cases) = edges (Part000.buildGraph d2 cases)
     ∧ node_ids (Part000.buildGraph d1 cases) = node_ids (Part000.buildGraph d2 cases)
     ∧ isStart <$> nodes (Part000.buildGraph d1 cases)
       = isStart <$> nodes (Part000.buildGraph d2 cases))
  ∧ (∀ graph,
       edges (AppTsx.buildGraph d1 graph) = edges (AppTsx.buildGraph d2 graph)
       ∧ node_ids (AppTsx.buildGraph d1 graph) = node_ids (AppTsx.buildGraph d2 graph)
       ∧ isStart <$> nodes (AppTsx.buildGraph d1 graph)
         = isStart <$> nodes (AppTsx.buildGraph d2 graph))
  ∧ (∀ graph,
       edges (Part001.buildGraph d1 graph) = edges (Part001.buildGraph d2 graph)
       ∧ node_ids (Part001.buildGraph d1 graph) = node_ids (Part001.buildGraph d2 graph)
       ∧ isStart <$> nodes (Part001.buildGraph d1 graph)
         = isStart <$> nodes (Part001.buildGraph d2 graph)).
Proof.
  split_and!.
  - intros cases. rewrite !Part000Facts.traces_buildGraph_unfold.
    unfold node_ids. simpl.
    by rewrite !LayoutFacts.createLayout_ids, !LayoutFacts.createLayout_isStart.
  - intros graph. unfold node_ids, AppTsx.buildGraph. simpl.
    by rewrite !LayoutFacts.createLayout_ids, !LayoutFacts.createLayout_isStart.
  - intros graph. unfold node_ids, Part001.buildGraph. simpl.
    by rewrite !LayoutFacts.createLayout_ids, !LayoutFacts.createLayout_isStart.
Qed.

(** ** The highlight resolver *)

(** C1, as stated, fails: [buildHighlightSet] never sees the graph.  On
    the mock graph, the path [/login, /settings] of a suite recorded
    before [/settings] was removed highlights the id [/settings], which is
    no node, and the id [/login->/settings], which is no edge. *)
Lemma highlight_not_sound_for_stale_path :
  ¬ AppTsx.highlight_sound
      (AppTsx.buildGraph dagre_origin AppTsx.mockGraph)
      ["/login"; "/settings"].
Proof.
  intros [Hn _]. specialize (Hn "/settings").
  assert (Hin : "/settings" ∈ AppTsx.nodeIds
                  (AppTsx.buildHighlightSet ["/login"; "/settings"])).
  { apply AppTsxFacts.app_elem_of_nodeIds. repeat constructor. }
  apply Hn, list_elem_of_In in Hin. vm_compute in Hin.
  intuition discriminate.
Qed.

(** C1, amended: the highlight resolver reads the path alone.  Its node
    set is exactly the set of ids of the path and its edge set exactly
    the ids [a->b] of the consecutive pairs [(a, b)] of the path with [b]
    non-empty, whatever the graph.  The graph enters at render time
    only: the rendered node and edge lists are the built graph's own,
    id for id, and an edge is stroked as highlighted exactly when its id
    is in the edge set.  The empty path gives two empty sets. *)
Theorem highlight_sets_follow_path (path : list string) :
  let h := AppTsx.buildHighlightSet path in
  (∀ i, i ∈ AppTsx.nodeIds h ↔ i ∈ path)
  ∧ (∀ i, i ∈ AppTsx.edgeIds h ↔
          ∃ (k : nat) a b,
            path !! k = Some a ∧ path !! (k + 1)%nat = Some b
            ∧ b ≠ "" ∧ i = Js.arrow a b)
  ∧ (∀ g : Graph,
       node_id <$> AppTsx.renderNodes (nodes g) (Some h) = node_ids g
       ∧ edge_id <$> AppTsx.renderEdges (edges g) (Some h) = edge_ids g
       ∧ ∀ e', e' ∈ AppTsx.renderEdges (edges g) (Some h) →
           ∃ e, e ∈ edges g ∧ edge_id e' = edge_id e
             ∧ edge_source e' = edge_source e ∧ edge_target e' = edge_target e
             ∧ stroke (edge_style e') =
                 (if bool_decide (edge_id e ∈ AppTsx.edgeIds h)
                  then "#38bdf8" else "#334155"))
  ∧ AppTsx.buildHighlightSet [] = {| AppTsx.nodeIds := ∅; AppTsx.edgeIds := ∅ |}.
Proof.
  intros h. split_and!.
  - apply AppTsxFacts.app_elem_of_nodeIds.
  - apply AppTsxFacts.app_elem_of_edgeIds.
  - intros g. split_and!.
    + apply AppTsxFacts.app_renderNodes_ids.
    + apply AppTsxFacts.app_renderEdges_ids.
    + apply AppTsxFacts.app_renderEdges_elem_of.
  - reflexivity.
Qed.

(** The amended C1 at the stale path: [/settings] is highlighted, and the
    rendered nodes are still the six nodes of the mock graph. *)
Lemma highlight_sets_follow_path_witness :
  "/settings" ∈ AppTsx.nodeIds (AppTsx.buildHighlightSet ["/login"; "/settings"])
  ∧ "/login->/settings"
      ∈ AppTsx.edgeIds (AppTsx.buildHighlightSet ["/login"; "/settings"])
  ∧ node_id <$> AppTsx.renderNodes
                  (nodes (AppTsx.buildGraph dagre_origin AppTsx.mockGraph))
                  (Some (AppTsx.buildHighlightSet ["/login"; "/settings"]))
    = ["/login"; "/cart"; "/checkout"; "/thank-you"; "/inventory"; "/dashboard"].
Proof.
  destruct (highlight_sets_follow_path ["/login"; "/settings"])
    as (Hn & He & Hg & _).
  split_and!.
  - apply Hn. repeat constructor.
  - apply He. exists 0%nat, "/login", "/settings". done.
  - destruct (Hg (AppTsx.buildGraph dagre_origin AppTsx.mockGraph)) as (-> & _).
    vm_compute. reflexivity.
Defined.

(** C10: a pair of consecutive path elements whose second element is the
    empty string adds nothing to the edge-id set: the loop body leaves
    the set as it was, and every id of the final set comes from a pair
    with a non-empty second element.  The empty string, wherever it
    occurs in the path, is nevertheless in the node set. *)
Theorem empty_successor_adds_no_edge (path : list string) :
  (∀ (k : nat) a (edgeIds : gset string),
     path !! k = Some a → path !! (k + 1)%nat = Some "" →
     AppTsx.addPair path edgeIds k a = edgeIds)
  ∧ (∀ i, i ∈ AppTsx.edgeIds (AppTsx.buildHighlightSet path) →
          ∃ (k : nat) a b,
            path !! k = Some a ∧ path !! (k + 1)%nat = Some b
            ∧ b ≠ "" ∧ i = Js.arrow a b)
  ∧ ("" ∈ path → "" ∈ AppTsx.nodeIds (AppTsx.buildHighlightSet path)).
Proof.
  split_and!.
  - intros k a edgeIds _ Hnext. unfold AppTsx.addPair. by rewrite Hnext.
  - intros i. apply AppTsxFacts.app_elem_of_edgeIds.
  - apply AppTsxFacts.app_elem_of_nodeIds.
Qed.

(** C10 on the path [/login, "", /cart]: the pair [(/login, "")] adds
    nothing, the only edge id is the one of the pair [("", /cart)], and
    the empty string is a highlighted node id. *)
Lemma empty_successor_adds_no_edge_witness :
  AppTsx.addPair ["/login"; ""; "/cart"] ∅ 0 "/login" = ∅
  ∧ AppTsx.edgeIds (AppTsx.buildHighlightSet ["/login"; ""; "/cart"])
    = {[ "->/cart" ]}
  ∧ "" ∈ AppTsx.nodeIds (AppTsx.buildHighlightSet ["/login"; ""; "/cart"]).
Proof.
  destruct (empty_successor_adds_no_edge ["/login"; ""; "/cart"])
    as (Hbody & _ & Hnode).
  split_and!.
  - apply Hbody; reflexivity.
  - vm_compute. reflexivity.
  - apply Hnode. repeat constructor.
Defined.

(** ** Self-loops *)

(** C2, as stated, fails for explicit graph records: an input edge from
    [/cart] to [/cart] is built as the edge [/cart->/cart]. *)
Lemma explicit_self_loop_is_built :
  ¬ no_self_loop (AppTsx.buildGraph dagre_origin AppTsx.selfLoopGraph).
Proof.
  intros H.
  apply (H (AppTsx.builtEdge {| AppTsx.source := "/cart"; AppTsx.target := "/cart" |}));
    [|reflexivity].
  vm_compute. constructor.
Qed.

(** C2, amended: for every trace list the built graph has no self-loop;
    each of its edges joins the locations of two consecutive steps of
    one trace that differ, so consecutive steps at the same location
    produce no edge.  For an explicit graph record the builder copies
    source and target of the input edges and filters nothing: the built
    graph has no self-loop when the input edge list has none, and an
    input self-loop that is the first input edge with its id is built. *)
Theorem self_loops_come_only_from_explicit_input (dagre : Dagre) :
  (∀ cases,
     no_self_loop (Part000.buildGraph dagre cases)
     ∧ ∀ e, e ∈ edges (Part000.buildGraph dagre cases) →
            ∃ c, c ∈ cases
                 ∧ Part000.transition c (edge_source e) (edge_target e))
  ∧ (∀ graph,
       ((∀ a, a ∈ AppTsx.edges graph → AppTsx.source a ≠ AppTsx.target a) →
        no_self_loop (AppTsx.buildGraph dagre graph))
       ∧ (∀ a, AppTsx.first_with_id (AppTsx.edges graph) a →
               AppTsx.source a = AppTsx.target a →
               ¬ no_self_loop (AppTsx.buildGraph dagre graph)))
  ∧ (∀ graph,
       ((∀ a, a ∈ Part001.edges graph → Part001.source a ≠ Part001.target a) →
        no_self_loop (Part001.buildGraph dagre graph))
       ∧ (∀ a, Part001.first_with_id (Part001.edges graph) a →
               Part001.source a = Part001.target a →
               ¬ no_self_loop (Part001.buildGraph dagre graph))).
Proof.
  split_and!.
  - intros cases. split.
    + apply Part000Facts.traces_no_self_loop_buildGraph.
    + apply Part000Facts.traces_edge_from_transition.
  - intros graph. split.
    + intros Hin e He.
      apply AppTsxFacts.app_edge_endpoints_from_input in He as (a & Ha & -> & ->).
      by apply Hin.
    + intros a Hfirst Hloop Hno. apply (Hno (AppTsx.builtEdge a)); [|done].
      apply AppTsxFacts.app_elem_of_edges. by exists a.
  - intros graph. split.
    + intros Hin e He.
      apply Part001Facts.entry_edge_endpoints_from_input in He as (a & Ha & -> & ->).
      by apply Hin.
    + intros a Hfirst Hloop Hno. apply (Hno (Part001.builtEdge a)); [|done].
      apply Part001Facts.entry_elem_of_edges. by exists a.
Qed.

(** The amended C2 on the mock traces, whose first and third cases stay
    on a page for two steps, and on the mock graph. *)
Lemma self_loops_come_only_from_explicit_input_witness :
  no_self_loop (Part000.buildGraph dagre_origin Part000.mockCases)
  ∧ no_self_loop (AppTsx.buildGraph dagre_origin AppTsx.mockGraph)
  ∧ ¬ no_self_loop (AppTsx.buildGraph dagre_origin AppTsx.selfLoopGraph).
Proof.
  destruct (self_loops_come_only_from_explicit_input dagre_origin)
    as (Htr & Happ & _).
  split_and!.
  - apply Htr.
  - apply Happ. intros a Ha. apply list_elem_of_In in Ha. vm_compute in Ha.
    intuition subst; discriminate.
  - apply (proj2 (Happ AppTsx.selfLoopGraph)
             {| AppTsx.source := "/cart"; AppTsx.target := "/cart" |});
      reflexivity.
Defined.

(** ** Edges without a node *)

(** C3, as stated, fails for explicit graph records: the edge from
    [/login] to [/dashboard] is built although [/dashboard] is not in the
    node list. *)
Lemma explicit_dangling_edge_is_built :
  ¬ no_dangling (AppTsx.buildGraph dagre_origin AppTsx.danglingGraph).
Proof.
  intros H.
  destruct (H (AppTsx.builtEdge
                 {| AppTsx.source := "/login"; AppTsx.target := "/dashboard" |}))
    as [_ Ht].
  - vm_compute. constructor.
  - apply list_elem_of_In in Ht. vm_compute in Ht. intuition discriminate.
Qed.

(** C3, amended: the explicit-graph builders do not compare edges with
    the node list.  The edge ids of the built graph are the ids of all
    input edges, and an input edge that is the first with its id is built
    with its source and target as given, whether or not they name nodes.
    A record with zero nodes yields zero nodes and no start node.  For a
    trace list both ends of every built edge are nodes of the built
    graph, and a trace list without steps yields the empty graph. *)
Theorem edges_are_not_checked_against_nodes (dagre : Dagre) :
  (∀ cases,
     no_dangling (Part000.buildGraph dagre cases)
     ∧ ((∀ c, c ∈ cases → Part000.steps c = []) →
        Part000.buildGraph dagre cases = {| nodes := []; edges := [] |}))
  ∧ (∀ graph,
       (∀ i, i ∈ edge_ids (AppTsx.buildGraph dagre graph)
             ↔ i ∈ AppTsx.edgeKey <$> AppTsx.edges graph)
       ∧ (∀ a, AppTsx.first_with_id (AppTsx.edges graph) a →
               AppTsx.builtEdge a ∈ edges (AppTsx.buildGraph dagre graph))
       ∧ (AppTsx.nodes graph = [] →
          nodes (AppTsx.buildGraph dagre graph) = []
          ∧ start_nodes (AppTsx.buildGraph dagre graph) = []))
  ∧ (∀ graph,
       (∀ i, i ∈ edge_ids (Part001.buildGraph dagre graph)
             ↔ i ∈ Part001.edgeKey <$> Part001.edges graph)
       ∧ (∀ a, Part001.first_with_id (Part001.edges graph) a →
               Part001.builtEdge a ∈ edges (Part001.buildGraph dagre graph))
       ∧ (Part001.nodes graph = [] →
          nodes (Part001.buildGraph dagre graph) = []
          ∧ start_nodes (Part001.buildGraph dagre graph) = [])).
Proof.
  split_and!.
  - intros cases. split.
    + apply Part000Facts.traces_no_dangling_buildGraph.
    + apply Part000Facts.traces_no_steps_empty_graph.
  - intros graph. split_and!.
    + apply AppTsxFacts.app_elem_of_edge_ids.
    + intros a Ha. apply AppTsxFacts.app_elem_of_edges. by exists a.
    + apply AppTsxFacts.app_no_nodes_buildGraph.
  - intros graph. split_and!.
    + apply Part001Facts.entry_elem_of_edge_ids.
    + intros a Ha. apply Part001Facts.entry_elem_of_edges. by exists a.
    + apply Part001Facts.entry_no_nodes_buildGraph.
Qed.

(** The amended C3 on the record with a dangling edge and on the record
    with an edge and no node. *)
Lemma edges_are_not_checked_against_nodes_witness :
  AppTsx.builtEdge {| AppTsx.source := "/login"; AppTsx.target := "/dashboard" |}
    ∈ edges (AppTsx.buildGraph dagre_origin AppTsx.danglingGraph)
  ∧ nodes (AppTsx.buildGraph dagre_origin AppTsx.edgesOnlyGraph) = []
  ∧ start_nodes (AppTsx.buildGraph dagre_origin AppTsx.edgesOnlyGraph) = []
  ∧ Part000.buildGraph dagre_origin
      [ {| Part000.id := "TS-000"; Part000.name := "empty"; Part000.steps := [] |} ]
    = {| nodes := []; edges := [] |}.
Proof.
  destruct (edges_are_not_checked_against_nodes dagre_origin)
    as (Htr & Happ & _).
  split_and!.
  - apply (Happ AppTsx.danglingGraph). reflexivity.
  - apply (Happ AppTsx.edgesOnlyGraph). reflexivity.
  - apply (Happ AppTsx.edgesOnlyGraph). reflexivity.
  - apply Htr. intros c Hc. apply list_elem_of_singleton in Hc. by subst.
Defined.

(** ** De-duplication of edges *)

(** C6: in every built graph the edge ids are pairwise distinct, every
    edge's id is its source, ["->"], its target, and no two places of the
    edge list hold the same (source, target) pair; every transition seen
    in a trace, and every edge of an explicit edge list, however often it
    is repeated, is represented by the one edge with that id. *)
Theorem one_edge_per_source_target_pair (dagre : Dagre) :
  (∀ cases,
     edges_deduplicated (Part000.buildGraph dagre cases)
     ∧ ∀ c a b, c ∈ cases → Part000.transition c a b →
                Js.arrow a b ∈ edge_ids (Part000.buildGraph dagre cases))
  ∧ (∀ graph,
       edges_deduplicated (AppTsx.buildGraph dagre graph)
       ∧ ∀ a, a ∈ AppTsx.edges graph →
              Js.arrow (AppTsx.source a) (AppTsx.target a)
                ∈ edge_ids (AppTsx.buildGraph dagre graph))
  ∧ (∀ graph,
       edges_deduplicated (Part001.buildGraph dagre graph)
       ∧ ∀ a, a ∈ Part001.edges graph →
              Js.arrow (Part001.source a) (Part001.target a)
                ∈ edge_ids (Part001.buildGraph dagre graph)).
Proof.
  split_and!.
  - intros cases. split.
    + apply Part000Facts.traces_edges_deduplicated_buildGraph.
    + intros c a b. apply Part000Facts.traces_transition_edge_id.
  - intros graph. split.
    + apply AppTsxFacts.app_edges_deduplicated_buildGraph.
    + intros a Ha. apply AppTsxFacts.app_elem_of_edge_ids.
      apply list_elem_of_fmap. by exists a.
  - intros graph. split.
    + apply Part001Facts.entry_edges_deduplicated_buildGraph.
    + intros a Ha. apply Part001Facts.entry_elem_of_edge_ids.
      apply list_elem_of_fmap. by exists a.
Qed.

(** C6 on two traces that both go from A to B: the edge list is
    [A->B, B->C], and the transition of the second trace is the edge
    [A->B]. *)
Lemma one_edge_per_source_target_pair_witness :
  edge_ids (Part000.buildGraph dagre_origin Part000.twiceAB) = ["A->B"; "B->C"]
  ∧ NoDup (edge_ids (Part000.buildGraph dagre_origin Part000.twiceAB))
  ∧ "A->B" ∈ edge_ids (Part000.buildGraph dagre_origin Part000.twiceAB).
Proof.
  destruct (one_edge_per_source_target_pair dagre_origin) as (Htr & _ & _).
  destruct (Htr Part000.twiceAB) as ((Hnd & _ & _) & Hin).
  split_and!.
  - vm_compute. reflexivity.
  - exact Hnd.
  - apply (Hin {| Part000.id := "T2"; Part000.name := "two";
                  Part000.steps := Part000.oneStep <$> ["A"; "A"; "B"; "C"] |}
               "A" "B").
    + apply elem_of_cons. right. apply elem_of_cons. by left.
    + exists 1%nat, (Part000.oneStep "A"), (Part000.oneStep "B").
      split_and!; done.
Defined.

(** ** The start node *)

(** Node ids are pairwise distinct in every built graph.  There is
    exactly one start node when the first test case has a first step
    (that step's page), and when an explicit record has a node (the
    resolved start id); there is none when the trace builder finds no
    first step of the first case, and none for a record without
    nodes. *)
Theorem start_node_of_built_graph (dagre : Dagre) :
  (∀ cases,
     NoDup (node_ids (Part000.buildGraph dagre cases))
     ∧ (∀ c s, cases !! 0%nat = Some c → Part000.steps c !! 0%nat = Some s →
               unique_start (Part000.buildGraph dagre cases) (Part000.page s))
     ∧ (Part000.startPage cases = None →
        start_nodes (Part000.buildGraph dagre cases) = []))
  ∧ (∀ graph,
       NoDup (node_ids (AppTsx.buildGraph dagre graph))
       ∧ (∀ first rest, AppTsx.nodes graph = first :: rest →
            unique_start (AppTsx.buildGraph dagre graph) (AppTsx.id first))
       ∧ (AppTsx.nodes graph = [] →
          start_nodes (AppTsx.buildGraph dagre graph) = []))
  ∧ (∀ graph,
       NoDup (node_ids (Part001.buildGraph dagre graph))
       ∧ (Part001.nodes graph ≠ [] →
          ∃ s, Part001.startNode graph = Some s
               ∧ unique_start (Part001.buildGraph dagre graph) s)
       ∧ (Part001.nodes graph = [] →
          start_nodes (Part001.buildGraph dagre graph) = [])).
Proof.
  split_and!.
  - intros cases. split_and!.
    + apply Part000Facts.traces_node_ids_NoDup.
    + apply Part000Facts.traces_unique_start.
    + apply Part000Facts.traces_no_start.
  - intros graph. split_and!.
    + apply AppTsxFacts.app_node_ids_NoDup.
    + intros first rest Hnodes.
      destruct (AppTsxFacts.app_startNode_elem_of graph) as (n & Hn & Hs & Hin).
      { by rewrite Hnodes. }
      rewrite Hnodes in Hn. injection Hn as <-.
      by apply AppTsxFacts.app_unique_start_buildGraph.
    + intros Hnil. by apply AppTsxFacts.app_no_nodes_buildGraph.
  - intros graph. split_and!.
    + apply Part001Facts.entry_node_ids_NoDup.
    + intros Hne.
      destruct (Part001Facts.entry_startNode_elem_of graph Hne) as (s & Hs & Hin).
      exists s. split; [done|].
      by apply Part001Facts.entry_unique_start_buildGraph.
    + intros Hnil. by apply Part001Facts.entry_no_nodes_buildGraph.
Qed.

(** C4 fails on the trace builder when the first test case has no step:
    [cases[0]?.steps[0]?.page] is then undefined, the page of the second
    case is built as a node, and no node is classed as the start node. *)
Theorem first_case_without_steps_leaves_no_start (dagre : Dagre) :
  Part000.startPage Part000.emptyFirstCase = None
  ∧ node_ids (Part000.buildGraph dagre Part000.emptyFirstCase) = ["/login"]
  ∧ start_nodes (Part000.buildGraph dagre Part000.emptyFirstCase) = [].
Proof. vm_compute. done. Qed.

(** C5: the builder with entry points resolves the start node to the
    first node whose [metadata.entryPoint] is truthy, wherever it stands
    in the node list, and to the first node when no node is flagged; that
    node is the one start node of the built graph.  The builder over
    records without metadata, in which no node can be flagged, takes the
    first node. *)
Theorem entry_point_becomes_start (dagre : Dagre) :
  (∀ graph before x after,
     Part001.nodes graph = before ++ x :: after →
     Part001.entryPoint x = true →
     (∀ m, m ∈ before → Part001.entryPoint m = false) →
     Part001.startNode graph = Some (Part001.id x)
     ∧ unique_start (Part001.buildGraph dagre graph) (Part001.id x))
  ∧ (∀ graph first rest,
       Part001.nodes graph = first :: rest →
       (∀ m, m ∈ Part001.nodes graph → Part001.entryPoint m = false) →
       Part001.startNode graph = Some (Part001.id first)
       ∧ unique_start (Part001.buildGraph dagre graph) (Part001.id first))
  ∧ (∀ graph first rest,
       AppTsx.nodes graph = first :: rest →
       AppTsx.startNode graph = Some (AppTsx.id first)
       ∧ unique_start (AppTsx.buildGraph dagre graph) (AppTsx.id first)).
Proof.
  assert (Hstart : ∀ graph s,
            Part001.startNode graph = Some s →
            Part001.nodes graph ≠ [] →
            unique_start (Part001.buildGraph dagre graph) s).
  { intros graph s Hs Hne.
    destruct (Part001Facts.entry_startNode_elem_of graph Hne) as (s' & Hs' & Hin).
    rewrite Hs in Hs'. injection Hs' as <-.
    by apply Part001Facts.entry_unique_start_buildGraph. }
  split_and!.
  - intros graph before x after Hnodes Hx Hbefore.
    pose proof (Part001Facts.entry_startNode_flagged _ _ _ _ Hnodes Hx Hbefore) as Hs.
    split; [done|]. apply Hstart; [done|]. rewrite Hnodes. by destruct before.
  - intros graph first rest Hnodes Hnone.
    pose proof (Part001Facts.entry_startNode_unflagged _ _ _ Hnodes Hnone) as Hs.
    split; [done|]. apply Hstart; [done|]. by rewrite Hnodes.
  - intros graph first rest Hnodes.
    destruct (AppTsxFacts.app_startNode_elem_of graph) as (n & Hn & Hs & Hin).
    { by rewrite Hnodes. }
    rewrite Hnodes in Hn. injection Hn as <-.
    split; [done|]. by apply AppTsxFacts.app_unique_start_buildGraph.
Qed.

(** C5 on a record whose second node is the flagged one (scenario 2 of
    the specification, with the flagged node last). *)
Lemma entry_point_becomes_start_witness :
  Part001.startNode Part001.flaggedSecond = Some "X"
  ∧ unique_start (Part001.buildGraph dagre_origin Part001.flaggedSecond) "X".
Proof.
  destruct (entry_point_becomes_start dagre_origin) as (Hflag & _ & _).
  apply (Hflag Part001.flaggedSecond
           [Part001.mkNode "Y" "Why" ∅]
           (Part001.mkNode "X" "Ex" Part001.entryMeta) []).
  - reflexivity.
  - vm_compute. reflexivity.
  - intros m Hm. apply list_elem_of_singleton in Hm. subst. vm_compute. reflexivity.
Defined.

(** ** Duplicate edges of an explicit record *)

(** C9, as stated, fails when two different pairs have the same id: the
    pair [(a, b->c)] is given twice, labelled [second] and [third], but
    the only built edge is the one of the earlier pair [(a->b, c)],
    labelled [first]. *)
Lemma first_of_pair_loses_to_earlier_same_id :
  ¬ Part001.first_write_wins_by_pair
      (Part001.buildGraph dagre_origin Part001.collidingGraph)
      Part001.collidingGraph.
Proof.
  intros H.
  destruct (H 1%nat 2%nat (Part001.mkEdge "a" "b->c" "second")
              (Part001.mkEdge "a" "b->c" "third")
              eq_refl eq_refl ltac:(lia) eq_refl eq_refl eq_refl)
    as (e & He & Hs & _).
  apply list_elem_of_In in He. vm_compute in He.
  destruct He as [<-|[]]. discriminate Hs.
Qed.

(** C9, amended: duplicates are resolved first-write-wins per edge id.
    The built edge list has one edge per id, and its edges are exactly
    the records (source, target, label and the fixed styling) of the
    input edges that are the first with their id; every later input edge
    of that id is ignored.  For a (source, target) pair this is the
    pair's first input edge whenever no input edge of another pair has
    the same id. *)
Theorem first_write_wins_per_edge_id (dagre : Dagre) (graph : Part001.AppGraph) :
  NoDup (edge_ids (Part001.buildGraph dagre graph))
  ∧ (∀ e, e ∈ edges (Part001.buildGraph dagre graph) ↔
          ∃ a, Part001.first_with_id (Part001.edges graph) a
               ∧ e = Part001.builtEdge a)
  ∧ (∀ a, Part001.first_with_pair (Part001.edges graph) a →
          (∀ a', a' ∈ Part001.edges graph →
                 Part001.edgeKey a' = Part001.edgeKey a →
                 Part001.source a' = Part001.source a
                 ∧ Part001.target a' = Part001.target a) →
          ∃ e, e ∈ edges (Part001.buildGraph dagre graph)
               ∧ edge_id e = Part001.edgeKey a
               ∧ edge_source e = Part001.source a
               ∧ edge_target e = Part001.target a
               ∧ edge_label e = Some (Part001.elabel a)).
Proof.
  split_and!.
  - apply Part001Facts.entry_edges_deduplicated_buildGraph.
  - apply Part001Facts.entry_elem_of_edges.
  - intros a Hpair Hinj. exists (Part001.builtEdge a). split_and!; [|done..].
    apply Part001Facts.entry_elem_of_edges. exists a. split; [|done].
    by apply Part001Facts.entry_first_with_pair_id.
Qed.

(** The amended C9 on a record that gives the pair (node-1, node-2)
    twice: the built edge is labelled as the first of the two. *)
Lemma first_write_wins_per_edge_id_witness :
  ∃ e, edges (Part001.buildGraph dagre_origin Part001.relabelledGraph) = [e]
       ∧ edge_id e = "node-1->node-2"
       ∧ edge_label e = Some "Search Click".
Proof.
  destruct (first_write_wins_per_edge_id dagre_origin Part001.relabelledGraph)
    as (_ & _ & Hpair).
  destruct (Hpair (Part001.mkEdge "node-1" "node-2" "Search Click"))
    as (e & He & Hid & _ & _ & Hlabel).
  - reflexivity.
  - intros a' Ha' _. apply list_elem_of_In in Ha'. vm_compute in Ha'.
    destruct Ha' as [<-|[<-|[]]]; done.
  - exists e. split_and!; [|done..].
    apply list_elem_of_In in He. vm_compute in He.
    destruct He as [<-|[]]. vm_compute. reflexivity.
Defined.

End Properties.

(** * Order, overwriting and the component *)

Module OrderFacts.
Import Order JsMap JsMapFacts.

Lemma first_occurrences_elem_of (l : list string) (x : string) :
  x ∈ first_occurrences l ↔ x ∈ l.
Proof.
  induction l as [|y l IH]; simpl; [done|].
  rewrite !elem_of_cons, list_elem_of_filter, IH.
  destruct (decide (x = y)); naive_solver.
Qed.

Lemma first_occurrences_NoDup (l : list string) : NoDup (first_occurrences l).
Proof.
  induction l as [|y l IH]; simpl; [apply NoDup_nil_2|].
  apply NoDup_cons. split.
  - rewrite list_elem_of_filter. naive_solver.
  - by apply NoDup_filter.
Qed.

Lemma filter_all {A : Type} (P : A → Prop) `{!∀ x, Decision (P x)} (l : list A) :
  (∀ x, x ∈ l → P x) → filter P l = l.
Proof.
  induction l as [|y l IH]; intros Hall; [done|].
  rewrite filter_cons_True by (apply Hall, elem_of_cons; by left).
  f_equal. apply IH. intros x Hx. apply Hall, elem_of_cons. by right.
Qed.

Lemma first_occurrences_NoDup_id (l : list string) :
  NoDup l → first_occurrences l = l.
Proof.
  induction l as [|y l IH]; intros Hnd; simpl; [done|].
  apply NoDup_cons in Hnd as [Hy Hnd]. rewrite IH by done. f_equal.
  apply filter_all. intros x Hx ->. done.
Qed.


Lemma first_occurrences_app (l1 l2 : list string) :
  first_occurrences (l1 ++ l2)
  = first_occurrences l1 ++ filter (λ x, x ∉ l1) (first_occurrences l2).
Proof.
  induction l1 as [|y l1 IH]; simpl.
  - symmetry. apply filter_all. intros x _. apply not_elem_of_nil.
  - f_equal. rewrite IH, filter_app. f_equal.
    rewrite list_filter_filter. apply list_filter_iff.
    intros x. rewrite not_elem_of_cons. tauto.
Qed.

Section loop.
Context {V A : Type} (key : A → string) (f : JsMap.t V → A → JsMap.t V).
Hypothesis keys_f :
  ∀ m a, keys (f m a) = if has (key a) m then keys m else keys m ++ [key a].

(** A loop that appends a key when it is new and keeps the key list
    otherwise enumerates the keys in the order of their first occurrence. *)
Lemma keys_fold_left (l : list A) (m : JsMap.t V) :
  keys (fold_left f l m)
  = keys m ++ filter (λ x, x ∉ keys m) (first_occurrences (key <$> l)).
Proof.
  revert m. induction l as [|a l IH]; intros m.
  - simpl. by rewrite app_nil_r.
  - change (fold_left f (a :: l) m) with (fold_left f l (f m a)).
    rewrite IH, keys_f, fmap_cons. simpl.
    destruct (has (key a) m) eqn:Hhas.
    + apply has_true in Hhas. rewrite filter_cons_False by naive_solver.
      f_equal. rewrite list_filter_filter. apply list_filter_iff.
      intros x. split; [|naive_solver]. intros Hx. split; [done|].
      intros ->. done.
    + apply has_false in Hhas. rewrite filter_cons_True by done.
      rewrite <- app_assoc. simpl. do 2 f_equal.
      rewrite list_filter_filter. apply list_filter_iff.
      intros x. rewrite not_elem_of_app, list_elem_of_singleton. done.
Qed.

Lemma keys_fold_left_empty (l : list A) :
  keys (fold_left f l empty) = first_occurrences (key <$> l).
Proof.
  rewrite keys_fold_left. simpl. apply filter_all.
  intros x _. apply not_elem_of_nil.
Qed.

End loop.

Lemma keys_fill {V A : Type} (key : A → string) (val : A → V) (l : list A) :
  keys (fill key val l empty) = first_occurrences (key <$> l).
Proof.
  apply (keys_fold_left_empty key). intros m a.
  unfold add_if_absent. destruct (has (key a) m) eqn:Hhas; simpl; [done|].
  by rewrite keys_set, Hhas.
Qed.

Lemma keys_overwrite {V A : Type} (key : A → string) (val : A → V) (l : list A) :
  keys (overwrite key val l empty) = first_occurrences (key <$> l).
Proof. apply (keys_fold_left_empty key). intros m a. apply keys_set. Qed.

Lemma find_app_first {A : Type} (P : A → bool) (l1 l2 : list A) :
  List.find P (l1 ++ l2)
  = match List.find P l1 with Some x => Some x | None => List.find P l2 end.
Proof.
  induction l1 as [|x l1 IH]; simpl; [done|]. by destruct (P x).
Qed.

(** Reading a key after an overwriting loop gives the value of the last
    element written under that key. *)
Lemma get_overwrite {V A : Type} (key : A → string) (val : A → V)
    (l : list A) (m : JsMap.t V) (i : string) :
  get i (overwrite key val l m)
  = match List.find (λ a, bool_decide (key a = i)) (reverse l) with
    | Some a => Some (val a)
    | None => get i m
    end.
Proof.
  revert m. induction l as [|a l IH]; intros m; [done|].
  rewrite overwrite_cons, IH, reverse_cons, find_app_first.
  destruct (List.find _ (reverse l)); [done|]. simpl.
  rewrite get_set. destruct (decide (i = key a)) as [->|Hne].
  - by rewrite bool_decide_eq_true_2.
  - by rewrite bool_decide_eq_false_2.
Qed.

Lemma set_same {V : Type} (k : string) (v : V) (m : JsMap.t V) :
  get k m = Some v → set k v m = m.
Proof.
  induction m as [|[k0 v0] m IH]; simpl; [done|].
  destruct (decide (k = k0)) as [->|Hne].
  - by intros [= ->].
  - intros H. by rewrite IH.
Qed.

(** When the value written depends on the key alone, overwriting and
    inserting-if-absent build the same map. *)
Lemma overwrite_fill {V A : Type} (key : A → string) (val : A → V) (l : list A) :
  (∀ a b, key a = key b → val a = val b) →
  overwrite key val l empty = fill key val l empty.
Proof.
  intros Hval.
  assert (Hgen : ∀ m : JsMap.t V,
            (∀ k v a, get k m = Some v → key a = k → v = val a) →
            overwrite key val l m = fill key val l m).
  { induction l as [|a l IH]; intros m Hm; [done|].
    rewrite overwrite_cons, fill_cons.
    assert (Hstep : set (key a) (val a) m = add_if_absent (key a) (val a) m).
    { unfold add_if_absent, has. destruct (get (key a) m) as [v|] eqn:Hget; simpl; [|done].
      apply set_same. rewrite Hget. f_equal. by apply (Hm (key a)). }
    rewrite Hstep. apply IH. intros k v b. rewrite get_add_if_absent.
    destruct (get k m) as [w|] eqn:Hget.
    - intros [= <-]. by apply Hm.
    - destruct (decide (k = key a)) as [->|]; [|done].
      intros [= <-] Hb. by apply Hval. }
  apply Hgen. intros k v a H. done.
Qed.

Lemma fill_fmap {V A B : Type} (g : A → B) (key : B → string) (val : B → V)
    (l : list A) (m : JsMap.t V) :
  fill key val (g <$> l) m = fill (key ∘ g) (val ∘ g) l m.
Proof.
  revert m. induction l as [|a l IH]; intros m; [done|].
  rewrite fmap_cons, !fill_cons, IH. done.
Qed.

Lemma overwrite_fmap {V A B : Type} (g : A → B) (key : B → string) (val : B → V)
    (l : list A) (m : JsMap.t V) :
  overwrite key val (g <$> l) m = overwrite (key ∘ g) (val ∘ g) l m.
Proof.
  revert m. induction l as [|a l IH]; intros m; [done|].
  rewrite fmap_cons, !overwrite_cons, IH. done.
Qed.

End OrderFacts.

Module MoreBuilderFacts.
Import ReactFlow Layout Order JsMapFacts.

Lemma NoDup_fmap_eq {A : Type} (f : A → string) (l : list A) (a b : A) :
  NoDup (f <$> l) → a ∈ l → b ∈ l → f a = f b → a = b.
Proof.
  induction l as [|c l IH]; intros Hnd Ha Hb Hf.
  - by apply elem_of_nil in Ha.
  - rewrite fmap_cons in Hnd. apply NoDup_cons in Hnd as [Hc Hnd].
    apply elem_of_cons in Ha as [->|Ha]; apply elem_of_cons in Hb as [->|Hb].
    + done.
    + exfalso. apply Hc. rewrite Hf. by apply list_elem_of_fmap_2.
    + exfalso. apply Hc. rewrite <- Hf. by apply list_elem_of_fmap_2.
    + by apply IH.
Qed.

(** With distinct keys the first and the last element of a key agree. *)
Lemma find_reverse_NoDup {A : Type} (f : A → string) (l : list A) (i : string) :
  NoDup (f <$> l) →
  List.find (λ a, bool_decide (f a = i)) (reverse l)
  = List.find (λ a, bool_decide (f a = i)) l.
Proof.
  intros Hnd.
  destruct (List.find (λ a, bool_decide (f a = i)) l) as [a|] eqn:Ha;
    destruct (List.find (λ a, bool_decide (f a = i)) (reverse l)) as [b|] eqn:Hb.
  - f_equal. apply find_some in Ha as [Ha Hfa], Hb as [Hb Hfb].
    apply bool_decide_eq_true in Hfa, Hfb.
    apply list_elem_of_In in Ha, Hb. rewrite elem_of_reverse in Hb.
    apply (NoDup_fmap_eq f l); [done..|congruence].
  - apply find_some in Ha as [Ha Hfa]. apply list_elem_of_In in Ha.
    apply elem_of_reverse, list_elem_of_In in Ha.
    by rewrite (find_none _ _ Hb _ Ha) in Hfa.
  - apply find_some in Hb as [Hb Hfb]. apply list_elem_of_In in Hb.
    rewrite elem_of_reverse in Hb. apply list_elem_of_In in Hb.
    by rewrite (find_none _ _ Ha _ Hb) in Hfb.
  - done.
Qed.

Section explicit_order.
Context {N E : Type}.
Context (nodeKey : N → string) (nodeVal : N → Node) (sn : option string).
Context (edgeKey : E → string) (edgeVal : E → Edge).
Hypothesis nodeVal_id : ∀ a, node_id (nodeVal a) = nodeKey a.
Hypothesis nodeVal_class :
  ∀ a, node_className (nodeVal a)
       = classNameOf (bool_decide (Some (nodeKey a) = sn)).
Hypothesis edgeVal_id : ∀ a, edge_id (edgeVal a) = edgeKey a.

Local Abbreviation build := (Shape.build nodeKey nodeVal edgeKey edgeVal).

Lemma build_node_order dagre ns es :
  node_ids (build dagre ns es) = first_occurrences (nodeKey <$> ns).
Proof.
  rewrite (BuilderFacts.build_node_ids nodeKey nodeVal sn) by done.
  apply OrderFacts.keys_overwrite.
Qed.

Lemma build_edge_order dagre ns es :
  edge_ids (build dagre ns es) = first_occurrences (edgeKey <$> es).
Proof.
  unfold edge_ids, Shape.build. simpl.
  rewrite (BuilderFacts.edge_ids_fill edgeKey edgeVal) by done.
  apply OrderFacts.keys_fill.
Qed.

(** Every built node is the record of the last input node with its id. *)
Lemma build_node_last dagre ns es n :
  n ∈ nodes (build dagre ns es) →
  ∃ a, List.find (λ a, bool_decide (nodeKey a = node_id n)) (reverse ns) = Some a
       ∧ node_id n = node_id (nodeVal a)
       ∧ node_label n = node_label (nodeVal a)
       ∧ node_className n = node_className (nodeVal a).
Proof.
  unfold Shape.build. simpl. intros Hn.
  apply LayoutFacts.createLayout_elem_of in Hn as (n0 & Hn0 & Hid & Hlabel & Hcls).
  apply elem_of_values in Hn0 as [k Hk].
  assert (Hkey : node_id n0 = k).
  { by apply (BuilderFacts.keyed_overwrite nodeKey nodeVal sn nodeVal_id
                nodeVal_class ns k n0). }
  apply elem_of_get in Hk; [|apply NoDup_keys_overwrite, NoDup_nil_2].
  rewrite OrderFacts.get_overwrite in Hk.
  destruct (List.find _ (reverse ns)) as [a|] eqn:Hfind; [|done].
  injection Hk as <-. exists a. rewrite Hid, Hkey. split_and!; [|done..].
  by rewrite Hfind.
Qed.

End explicit_order.


Lemma traces_node_ids_order dagre cases :
  node_ids (Part000.buildGraph dagre cases)
  = first_occurrences (Part000.page <$> Part000.allSteps cases).
Proof.
  rewrite Part000Facts.traces_buildGraph_unfold. unfold node_ids. simpl.
  rewrite (BuilderFacts.keyed_layout_ids _ _ _ _
             (Part000Facts.traces_pages_keyed cases)).
  apply OrderFacts.keys_fill.
Qed.

Lemma traces_edge_ids_order dagre cases :
  edge_ids (Part000.buildGraph dagre cases)
  = first_occurrences (Part000.edgeKey <$> Part000.allTransitions cases).
Proof.
  rewrite Part000Facts.traces_buildGraph_unfold. unfold edge_ids. simpl.
  rewrite (BuilderFacts.edge_ids_fill Part000.edgeKey Part000.transitionEdge)
    by done.
  apply OrderFacts.keys_fill.
Qed.

Lemma app_node_ids_order dagre graph :
  node_ids (AppTsx.buildGraph dagre graph)
  = first_occurrences (AppTsx.id <$> AppTsx.nodes graph).
Proof.
  rewrite AppTsxFacts.app_buildGraph_shape.
  by eapply build_node_order.
Qed.

Lemma app_edge_ids_order dagre graph :
  edge_ids (AppTsx.buildGraph dagre graph)
  = first_occurrences (AppTsx.edgeKey <$> AppTsx.edges graph).
Proof.
  rewrite AppTsxFacts.app_buildGraph_shape. by apply build_edge_order.
Qed.

Lemma entry_node_ids_order dagre graph :
  node_ids (Part001.buildGraph dagre graph)
  = first_occurrences (Part001.id <$> Part001.nodes graph).
Proof.
  rewrite Part001Facts.entry_buildGraph_shape.
  by eapply build_node_order.
Qed.

Lemma entry_edge_ids_order dagre graph :
  edge_ids (Part001.buildGraph dagre graph)
  = first_occurrences (Part001.edgeKey <$> Part001.edges graph).
Proof.
  rewrite Part001Facts.entry_buildGraph_shape. by apply build_edge_order.
Qed.

Lemma app_node_last dagre graph n :
  n ∈ nodes (AppTsx.buildGraph dagre graph) →
  ∃ a, List.find (λ a, bool_decide (AppTsx.id a = node_id n))
         (reverse (AppTsx.nodes graph)) = Some a
       ∧ node_label n = AppTsx.label a.
Proof.
  intros Hn. rewrite AppTsxFacts.app_buildGraph_shape in Hn.
  eapply build_node_last in Hn as (a & Hfind & _ & Hlabel & _); [|done..].
  by exists a.
Qed.

Lemma entry_node_last dagre graph n :
  n ∈ nodes (Part001.buildGraph dagre graph) →
  ∃ a, List.find (λ a, bool_decide (Part001.id a = node_id n))
         (reverse (Part001.nodes graph)) = Some a
       ∧ node_label n = Part001.label a.
Proof.
  intros Hn. rewrite Part001Facts.entry_buildGraph_shape in Hn.
  eapply build_node_last in Hn as (a & Hfind & _ & Hlabel & _); [|done..].
  by exists a.
Qed.

End MoreBuilderFacts.

Module OverlayFacts.
Import ReactFlow Layout AppTsx.

Lemma renderNodes_lookup baseNodes h (k : nat) :
  renderNodes baseNodes (Some h) !! k
  = (λ node,
       {| node_id := node_id node;
          node_label := node_label node;
          node_position := node_position node;
          node_className :=
            (node_className node ++ " " ++
             (if bool_decide (node_id node ∈ nodeIds h)
              then "ring-2 ring-sky-400 ring-offset-2 ring-offset-slate-950"
              else ""))%string |}) <$> baseNodes !! k.
Proof. simpl. by rewrite list_lookup_fmap. Qed.

Lemma renderEdges_lookup baseEdges h (k : nat) :
  renderEdges baseEdges (Some h) !! k
  = (λ edge,
       {| edge_id := edge_id edge;
          edge_source := edge_source edge;
          edge_target := edge_target edge;
          edge_animated := edge_animated edge;
          edge_label := edge_label edge;
          edge_labelStyle := edge_labelStyle edge;
          edge_style :=
            {| stroke := if bool_decide (edge_id edge ∈ edgeIds h)
                         then "#38bdf8" else "#334155";
               strokeWidth := Some (if bool_decide (edge_id edge ∈ edgeIds h)
                                    then 5 # 2 else 6 # 5) |} |})
    <$> baseEdges !! k.
Proof. simpl. by rewrite list_lookup_fmap. Qed.

Lemma renderNodes_labels baseNodes h :
  node_label <$> renderNodes baseNodes h = node_label <$> baseNodes.
Proof.
  destruct h as [h|]; simpl; [|done].
  rewrite <- list_fmap_compose. by apply list_fmap_ext.
Qed.

Lemma renderNodes_elem_of_base baseNodes h n' :
  n' ∈ renderNodes baseNodes h →
  ∃ n, n ∈ baseNodes ∧ node_id n' = node_id n ∧ node_label n' = node_label n.
Proof.
  destruct h as [h|]; simpl.
  - intros H. apply list_elem_of_fmap in H as (n & -> & Hn). by exists n.
  - intros H. by exists n'.
Qed.

Lemma size_union_le (X Y : gset string) : (size (X ∪ Y) ≤ size X + size Y)%nat.
Proof.
  rewrite size_union_alt. apply Nat.add_le_mono_l, subseteq_size. set_solver.
Qed.

Lemma size_contribution a ob : (size (contribution a ob) ≤ 1)%nat.
Proof.
  unfold contribution. destruct ob as [b|]; [|by rewrite size_empty; lia].
  destruct (Js.truthy_string b); [by rewrite size_singleton | rewrite size_empty; lia].
Qed.

Lemma size_fold_contribution (l : list string) (s : gset string) :
  (size (fold_left (λ s p, contribution p.1 p.2 ∪ s) (Js.with_next l) s)
   ≤ size s + (length l - 1))%nat.
Proof.
  revert s. induction l as [|a l IH]; intros s; [simpl; lia|].
  destruct l as [|b l].
  - simpl. rewrite (left_id_L ∅ (∪)). lia.
  - change (Js.with_next (a :: b :: l))
      with ((a, Some b) :: Js.with_next (b :: l)).
    change (fold_left ?f (?p :: ?w) ?s0) with (fold_left f w (f s0 p)).
    etrans; [apply IH|].
    pose proof (size_union_le (contribution a (Some b)) s) as Hu.
    pose proof (size_contribution a (Some b)) as Hc.
    simpl in *. lia.
Qed.

Lemma size_list_to_set (l : list string) :
  (size (list_to_set l : gset string) ≤ length l)%nat.
Proof.
  induction l as [|a l IH]; [apply Nat.eq_le_incl; reflexivity|].
  change (list_to_set (a :: l) : gset string) with ({[a]} ∪ list_to_set l : gset string).
  simpl.
  pose proof (size_union_le {[a]} (list_to_set l)) as Hle.
  rewrite size_singleton in Hle. lia.
Qed.

End OverlayFacts.

Module ComponentFacts.
Import ReactFlow Layout AppTsx AppComponent.

Lemma find_id_Some (graph : AppGraph) (i : string) :
  i ∈ id <$> nodes graph →
  ∃ n, List.find (λ node, bool_decide (Some (id node) = Some i)) (nodes graph)
       = Some n ∧ id n = i.
Proof.
  intros Hin. apply list_elem_of_fmap in Hin as (a & -> & Ha).
  destruct (List.find _ (nodes graph)) as [n|] eqn:Hfind.
  - exists n. split; [done|]. apply find_some in Hfind as [_ Hn].
    apply bool_decide_eq_true in Hn. congruence.
  - apply list_elem_of_In in Ha. apply (find_none _ _ Hfind) in Ha.
    by rewrite bool_decide_eq_true_2 in Ha.
Qed.

Lemma shownNodes_ids dagre graph st :
  node_id <$> shownNodes dagre graph st = node_ids (buildGraph dagre graph).
Proof. unfold shownNodes. apply AppTsxFacts.app_renderNodes_ids. Qed.

(** A click on a drawn node selects a node of the record with that id. *)
Lemma click_selects dagre graph st node :
  node ∈ shownNodes dagre graph st →
  ∃ n, selectedNode graph (handleNodeClick node st) = Some n
       ∧ id n = node_id node.
Proof.
  intros Hnode. unfold selectedNode, handleNodeClick. simpl.
  apply find_id_Some. apply (AppTsxFacts.app_elem_of_node_ids dagre).
  rewrite <- (shownNodes_ids dagre graph st). by apply list_elem_of_fmap_2.
Qed.

Lemma reachable_invariant dagre graph st :
  reachable dagre graph st →
  (∀ i, selectedNodeId st = Some i →
        ∃ n, selectedNode graph st = Some n ∧ id n = i)
  ∧ (∀ s, highlightedSuite st = Some s →
          ∃ n, selectedNode graph st = Some n ∧ s ∈ relatedTestSuites n).
Proof.
  induction 1 as [|st ev Hreach [IHsel IHhl] Hoff].
  - split; intros ? H; discriminate H.
  - destruct ev as [node| |suite|]; simpl in *.
    + split; [|intros ? H; discriminate H].
      intros i [= <-]. by apply (click_selects dagre graph st).
    + split; intros ? H; discriminate H.
    + split; [exact IHsel|]. intros s [= <-]. exact Hoff.
    + split; [exact IHsel|]. intros ? H. discriminate H.
Qed.

End ComponentFacts.

Module SidebarFacts.
Import ReactFlow Layout AppTsx AppComponent.

Lemma find_ext_elem {A : Type} (P Q : A → bool) (l : list A) :
  (∀ a, P a = Q a) → List.find P l = List.find Q l.
Proof.
  intros H. induction l as [|a l IH]; simpl; [done|]. by rewrite H, IH.
Qed.

(** With distinct ids, the node selected by a click carries the label of
    the node that was clicked. *)
Lemma click_selects_same_label dagre graph st node :
  NoDup (id <$> nodes graph) →
  node ∈ shownNodes dagre graph st →
  ∃ a, selectedNode graph (handleNodeClick node st) = Some a
       ∧ id a = node_id node ∧ label a = node_label node.
Proof.
  intros Hnd Hnode.
  apply OverlayFacts.renderNodes_elem_of_base in Hnode as (n0 & Hn0 & Hid & Hlabel).
  apply MoreBuilderFacts.app_node_last in Hn0 as (a & Hfind & Hlab0).
  rewrite (MoreBuilderFacts.find_reverse_NoDup id) in Hfind by done.
  exists a. split_and!.
  - unfold selectedNode, handleNodeClick. simpl. rewrite <- Hfind, Hid.
    apply find_ext_elem. intros b. apply bool_decide_ext. split; congruence.
  - apply find_some in Hfind as [_ Ha]. apply bool_decide_eq_true in Ha. congruence.
  - congruence.
Qed.

End SidebarFacts.

Module ConversionFacts.
Import ReactFlow Layout Conversion JsMapFacts.

Lemma conversion_edges dagre cases :
  edges (Part000.buildGraph dagre cases)
  = edges (AppTsx.buildGraph dagre (asRecord cases)).
Proof.
  rewrite Part000Facts.traces_buildGraph_unfold, AppTsxFacts.app_buildGraph_shape.
  unfold Shape.build, asRecord. simpl. by rewrite OrderFacts.fill_fmap.
Qed.

Lemma conversion_nodeMap sn cases :
  JsMap.overwrite AppTsx.id (AppTsx.builtNode sn)
    (stepNode <$> Part000.allSteps cases) JsMap.empty
  = JsMap.fill Part000.page (Part000.pageNode sn) (Part000.allSteps cases)
      JsMap.empty.
Proof.
  rewrite OrderFacts.overwrite_fmap.
  change (AppTsx.id ∘ stepNode) with Part000.page.
  change (AppTsx.builtNode sn ∘ stepNode) with (Part000.pageNode sn).
  apply OrderFacts.overwrite_fill. intros a b Hab.
  unfold Part000.pageNode. by rewrite Hab.
Qed.

Lemma conversion_start cases :
  (∀ c, cases !! 0%nat = Some c → Part000.steps c ≠ []) →
  Part000.startPage cases = AppTsx.startNode (asRecord cases).
Proof.
  intros Hfirst. unfold Part000.startPage, AppTsx.startNode, asRecord. simpl.
  destruct cases as [|c cases]; [done|]. simpl.
  specialize (Hfirst c eq_refl).
  unfold Part000.allSteps. rewrite fmap_cons. simpl.
  destruct (Part000.steps c) as [|s ss]; [done|]. done.
Qed.

Lemma conversion_graph dagre cases :
  Part000.startPage cases = AppTsx.startNode (asRecord cases) →
  Part000.buildGraph dagre cases = AppTsx.buildGraph dagre (asRecord cases).
Proof.
  intros Hstart.
  rewrite Part000Facts.traces_buildGraph_unfold, AppTsxFacts.app_buildGraph_shape.
  unfold Shape.build. simpl. rewrite <- Hstart.
  change (AppTsx.nodes (asRecord cases)) with (stepNode <$> Part000.allSteps cases).
  change (AppTsx.edges (asRecord cases))
    with (transitionInput <$> Part000.allTransitions cases).
  rewrite conversion_nodeMap, OrderFacts.fill_fmap. done.
Qed.

Lemma conversion_node_ids dagre cases :
  node_ids (Part000.buildGraph dagre cases)
  = node_ids (AppTsx.buildGraph dagre (asRecord cases)).
Proof.
  rewrite MoreBuilderFacts.traces_node_ids_order, MoreBuilderFacts.app_node_ids_order.
  unfold asRecord. simpl. by rewrite <- list_fmap_compose.
Qed.

End ConversionFacts.

(** * Further properties of the builders, the overlays and the component *)

Module Further.
Import ReactFlow Layout Order.

(** ** Order of the built lists *)

(** X1: the explicit-graph builders list the nodes in the order in which
    their ids first occur in the input node list and the edges in the
    order in which their ids first occur in the input edge list; when the
    input ids are pairwise distinct the built node ids are the input ids,
    place for place. *)
Theorem explicit_builders_keep_first_occurrence_order (dagre : Dagre) :
  (∀ graph,
     node_ids (AppTsx.buildGraph dagre graph)
     = first_occurrences (AppTsx.id <$> AppTsx.nodes graph)
     ∧ edge_ids (AppTsx.buildGraph dagre graph)
       = first_occurrences (AppTsx.edgeKey <$> AppTsx.edges graph)
     ∧ (NoDup (AppTsx.id <$> AppTsx.nodes graph) →
        node_ids (AppTsx.buildGraph dagre graph) = AppTsx.id <$> AppTsx.nodes graph))
  ∧ (∀ graph,
       node_ids (Part001.buildGraph dagre graph)
       = first_occurrences (Part001.id <$> Part001.nodes graph)
       ∧ edge_ids (Part001.buildGraph dagre graph)
         = first_occurrences (Part001.edgeKey <$> Part001.edges graph)
       ∧ (NoDup (Part001.id <$> Part001.nodes graph) →
          node_ids (Part001.buildGraph dagre graph)
          = Part001.id <$> Part001.nodes graph)).
Proof.
  split.
  - intros graph. split_and!.
    + apply MoreBuilderFacts.app_node_ids_order.
    + apply MoreBuilderFacts.app_edge_ids_order.
    + intros Hnd. rewrite MoreBuilderFacts.app_node_ids_order.
      by apply OrderFacts.first_occurrences_NoDup_id.
  - intros graph. split_and!.
    + apply MoreBuilderFacts.entry_node_ids_order.
    + apply MoreBuilderFacts.entry_edge_ids_order.
    + intros Hnd. rewrite MoreBuilderFacts.entry_node_ids_order.
      by apply OrderFacts.first_occurrences_NoDup_id.
Qed.

(** X1 on the mock graph, whose six ids are distinct. *)
Lemma explicit_builders_keep_first_occurrence_order_witness :
  node_ids (AppTsx.buildGraph dagre_origin AppTsx.mockGraph)
  = AppTsx.id <$> AppTsx.nodes AppTsx.mockGraph.
Proof.
  destruct (explicit_builders_keep_first_occurrence_order dagre_origin)
    as (Happ & _).
  apply (Happ AppTsx.mockGraph).
  apply (bool_decide_unpack _). vm_compute. reflexivity.
Defined.

(** X2: the trace builder lists the nodes in the order in which their
    pages first occur among the steps of all test cases, case after case,
    and the edges in the order in which their ids first occur among the
    transitions. *)
Theorem trace_builder_keeps_first_occurrence_order
    (dagre : Dagre) (cases : list Part000.TestCase) :
  node_ids (Part000.buildGraph dagre cases)
  = first_occurrences (Part000.page <$> Part000.allSteps cases)
  ∧ edge_ids (Part000.buildGraph dagre cases)
    = first_occurrences (Part000.edgeKey <$> Part000.allTransitions cases).
Proof.
  split.
  - apply MoreBuilderFacts.traces_node_ids_order.
  - apply MoreBuilderFacts.traces_edge_ids_order.
Qed.

(** ** Duplicate node ids *)

(** X3: where the explicit-graph builders meet a node id again they
    overwrite: every built node carries the label of the last input node
    with its id (while it keeps the place of the first, by X1). *)
Theorem duplicate_node_takes_last_label (dagre : Dagre) :
  (∀ graph n,
     n ∈ nodes (AppTsx.buildGraph dagre graph) →
     ∃ a, List.find (λ a, bool_decide (AppTsx.id a = node_id n))
            (reverse (AppTsx.nodes graph)) = Some a
          ∧ node_label n = AppTsx.label a)
  ∧ (∀ graph n,
       n ∈ nodes (Part001.buildGraph dagre graph) →
       ∃ a, List.find (λ a, bool_decide (Part001.id a = node_id n))
              (reverse (Part001.nodes graph)) = Some a
            ∧ node_label n = Part001.label a).
Proof.
  split.
  - apply MoreBuilderFacts.app_node_last.
  - apply MoreBuilderFacts.entry_node_last.
Qed.

(** X3 on a record that gives [/cart] first as Cart and later as Basket:
    the built node [/cart] comes first and is labelled Basket. *)
Lemma duplicate_node_takes_last_label_witness :
  ∃ n rest,
    nodes (AppTsx.buildGraph dagre_origin Inputs.relabelledNodes) = n :: rest
    ∧ node_id n = "/cart" ∧ node_label n = "Basket".
Proof.
  destruct (duplicate_node_takes_last_label dagre_origin) as (Happ & _).
  destruct (nodes (AppTsx.buildGraph dagre_origin Inputs.relabelledNodes))
    as [|n rest] eqn:Hnodes; [discriminate Hnodes|].
  exists n, rest. split; [done|].
  assert (Hid : node_id n = "/cart").
  { vm_compute in Hnodes. by injection Hnodes as <- _. }
  split; [done|].
  destruct (Happ Inputs.relabelledNodes n) as (a & Hfind & ->).
  - rewrite Hnodes. apply elem_of_cons. by left.
  - rewrite Hid in Hfind. vm_compute in Hfind. by injection Hfind as <-.
Defined.

(** ** The place of the start node *)

(** X4: in the trace builder and in the explicit-graph builder of
    [App.tsx] the start node, when there is one, is the first node of the
    built list: the page of the first step of the first test case, and the
    first input node. *)
Theorem start_node_is_listed_first (dagre : Dagre) :
  (∀ cases c s,
     cases !! 0%nat = Some c → Part000.steps c !! 0%nat = Some s →
     ∃ n rest, nodes (Part000.buildGraph dagre cases) = n :: rest
               ∧ node_id n = Part000.page s ∧ isStart n = true)
  ∧ (∀ graph first others,
       AppTsx.nodes graph = first :: others →
       ∃ n rest, nodes (AppTsx.buildGraph dagre graph) = n :: rest
                 ∧ node_id n = AppTsx.id first ∧ isStart n = true).
Proof.
  split.
  - intros cases c s Hc Hs.
    pose proof (MoreBuilderFacts.traces_node_ids_order dagre cases) as Hids.
    destruct cases as [|c' cases']; [done|]. injection Hc as ->.
    destruct (Part000.steps c) as [|s' ss] eqn:Hsteps; [done|]. injection Hs as ->.
    unfold Part000.allSteps in Hids. rewrite fmap_cons in Hids. simpl in Hids.
    rewrite Hsteps in Hids. simpl in Hids. unfold node_ids in Hids.
    destruct (nodes (Part000.buildGraph dagre (c :: cases'))) as [|n rest] eqn:Hnodes;
      [done|].
    rewrite fmap_cons in Hids. injection Hids as Hid _.
    exists n, rest. split_and!; [done..|].
    rewrite (Part000Facts.traces_isStart_nodes dagre (c :: cases') n).
    + apply bool_decide_eq_true_2. rewrite Hid.
      symmetry. apply (Part000Facts.traces_startPage_Some _ c s); [done|].
      by rewrite Hsteps.
    + rewrite Hnodes. apply elem_of_cons. by left.
  - intros graph first others Hnodes.
    pose proof (MoreBuilderFacts.app_node_ids_order dagre graph) as Hids.
    rewrite Hnodes, fmap_cons in Hids. simpl in Hids. unfold node_ids in Hids.
    destruct (nodes (AppTsx.buildGraph dagre graph)) as [|n rest] eqn:Hbuilt; [done|].
    rewrite fmap_cons in Hids. injection Hids as Hid _.
    exists n, rest. split_and!; [done..|].
    assert (Hn : n ∈ nodes (AppTsx.buildGraph dagre graph)).
    { rewrite Hbuilt. apply elem_of_cons. by left. }
    rewrite AppTsxFacts.app_buildGraph_shape in Hn.
    eapply BuilderFacts.build_isStart in Hn; [|done..].
    rewrite Hn. apply bool_decide_eq_true_2. rewrite Hid.
    unfold AppTsx.startNode. by rewrite Hnodes.
Qed.

(** X4 on the mock traces and on the mock graph: [/login] heads both node
    lists and is the start node. *)
Lemma start_node_is_listed_first_witness :
  (∃ n rest, nodes (Part000.buildGraph dagre_origin Part000.mockCases) = n :: rest
             ∧ node_id n = "/login" ∧ isStart n = true)
  ∧ (∃ n rest, nodes (AppTsx.buildGraph dagre_origin AppTsx.mockGraph) = n :: rest
               ∧ node_id n = "/login" ∧ isStart n = true).
Proof.
  destruct (start_node_is_listed_first dagre_origin) as (Htr & Happ).
  split.
  - apply (Htr Part000.mockCases
             {| Part000.id := "TS-001"; Part000.name := "Login flow";
                Part000.steps :=
                  [ {| Part000.index := 1; Part000.page := "/login";
                       Part000.action := "navigate" |};
                    {| Part000.index := 2; Part000.page := "/login";
                       Part000.action := "fill_email" |};
                    {| Part000.index := 3; Part000.page := "/dashboard";
                       Part000.action := "redirect" |} ] |}
             {| Part000.index := 1; Part000.page := "/login";
                Part000.action := "navigate" |}); reflexivity.
  - apply (Happ AppTsx.mockGraph (AppTsx.plainNode "/login")
             (AppTsx.plainNode <$> ["/cart"; "/checkout"; "/thank-you";
                                    "/inventory"; "/dashboard"])).
    reflexivity.
Defined.

(** ** The layout wrapper *)



(** ** When a highlight stays inside the graph *)

(** X6: the highlight computed from a path is sound for the graph built
    from a record exactly when every id of the path is the id of an input
    node and the id of every consecutive pair of the path with a non-empty
    second element is the id of an input edge. *)
Theorem highlight_sound_exactly_for_paths_of_the_graph
    (dagre : Dagre) (graph : AppTsx.AppGraph) (path : list string) :
  AppTsx.highlight_sound (AppTsx.buildGraph dagre graph) path
  ↔ (∀ i, i ∈ path → i ∈ AppTsx.id <$> AppTsx.nodes graph)
    ∧ (∀ (k : nat) a b,
         path !! k = Some a → path !! (k + 1)%nat = Some b → b ≠ "" →
         Js.arrow a b ∈ AppTsx.edgeKey <$> AppTsx.edges graph).
Proof.
  unfold AppTsx.highlight_sound. split.
  - intros [Hn He]. split.
    + intros i Hi. apply (AppTsxFacts.app_elem_of_node_ids dagre).
      by apply Hn, AppTsxFacts.app_elem_of_nodeIds.
    + intros k a b Ha Hb Hne. apply (AppTsxFacts.app_elem_of_edge_ids dagre).
      apply He, AppTsxFacts.app_elem_of_edgeIds. by exists k, a, b.
  - intros [Hn He]. split.
    + intros i Hi. apply AppTsxFacts.app_elem_of_node_ids.
      by apply Hn, AppTsxFacts.app_elem_of_nodeIds.
    + intros i Hi. apply AppTsxFacts.app_elem_of_edgeIds in Hi
        as (k & a & b & Ha & Hb & Hne & ->).
      apply AppTsxFacts.app_elem_of_edge_ids. by apply (He k).
Qed.

(** X6 for the path of the mock suite TS-42, which follows edges of the
    mock graph. *)
Lemma highlight_sound_exactly_for_paths_of_the_graph_witness :
  AppTsx.highlight_sound (AppTsx.buildGraph dagre_origin AppTsx.mockGraph)
    ["/login"; "/cart"; "/checkout"; "/thank-you"].
Proof.
  apply highlight_sound_exactly_for_paths_of_the_graph. split.
  - intros i Hi. apply list_elem_of_In in Hi. apply list_elem_of_In.
    vm_compute in Hi. vm_compute. tauto.
  - intros k a b Ha Hb _. apply list_elem_of_In.
    destruct k as [|[|[|[|k]]]]; simpl in Ha, Hb;
      try discriminate Hb; injection Ha as <-; injection Hb as <-;
      vm_compute; tauto.
Defined.

(** ** The overlays *)

(** X7: with no suite hovered the edge list is handed on unchanged.  With
    a suite hovered every edge keeps its place, id, source, target and
    label; an edge whose id is in the highlight set is stroked [#38bdf8]
    at width 5/2 and every other edge [#334155] at width 6/5.  A hovered
    suite with an empty path therefore dims every edge. *)
Theorem hovering_restyles_every_edge (baseEdges : list Edge) :
  AppTsx.renderEdges baseEdges None = baseEdges
  ∧ (∀ h (k : nat) e',
       AppTsx.renderEdges baseEdges (Some h) !! k = Some e' →
       ∃ e, baseEdges !! k = Some e
            ∧ edge_id e' = edge_id e ∧ edge_source e' = edge_source e
            ∧ edge_target e' = edge_target e ∧ edge_label e' = edge_label e
            ∧ edge_style e' =
                if bool_decide (edge_id e ∈ AppTsx.edgeIds h)
                then {| stroke := "#38bdf8"; strokeWidth := Some (5 # 2) |}
                else {| stroke := "#334155"; strokeWidth := Some (6 # 5) |})
  ∧ (∀ e', e' ∈ AppTsx.renderEdges baseEdges (Some (AppTsx.buildHighlightSet [])) →
           edge_style e' = {| stroke := "#334155"; strokeWidth := Some (6 # 5) |}).
Proof.
  split_and!.
  - reflexivity.
  - intros h k e' Hk. rewrite OverlayFacts.renderEdges_lookup in Hk.
    destruct (baseEdges !! k) as [e|]; [|done]. injection Hk as <-.
    exists e. split_and!; [done..|]. simpl.
    by destruct (bool_decide (edge_id e ∈ AppTsx.edgeIds h)).
  - intros e' He'. simpl in He'.
    apply list_elem_of_fmap in He' as (e & -> & _). simpl.
    rewrite bool_decide_eq_false_2; [done|]. apply not_elem_of_empty.
Qed.

(** X7 on the mock graph with the suite TS-10 hovered: the first edge,
    [/login->/dashboard], is the highlighted one. *)
Lemma hovering_restyles_every_edge_witness :
  ∃ e', AppTsx.renderEdges
          (edges (AppTsx.buildGraph dagre_origin AppTsx.mockGraph))
          (Some (AppTsx.buildHighlightSet ["/login"; "/dashboard"])) !! 0%nat
        = Some e'
        ∧ edge_id e' = "/login->/dashboard"
        ∧ edge_style e' = {| stroke := "#38bdf8"; strokeWidth := Some (5 # 2) |}.
Proof.
  destruct (hovering_restyles_every_edge
              (edges (AppTsx.buildGraph dagre_origin AppTsx.mockGraph)))
    as (_ & Hstyle & _).
  eexists. split; [reflexivity|].
  destruct (Hstyle (AppTsx.buildHighlightSet ["/login"; "/dashboard"]) 0%nat _ eq_refl)
    as (e & He & Hid & _ & _ & _ & Hst).
  injection He as <-. split; [exact Hid|]. rewrite Hst. vm_compute. reflexivity.
Defined.

(** X8: with no suite hovered the node list is handed on unchanged.  With
    a suite hovered every node keeps its place, id, label and position,
    and its class name is extended by a blank and, exactly when its id
    occurs in the suite's path, by the ring classes. *)
Theorem hovering_rings_the_nodes_of_the_path
    (baseNodes : list Node) (path : list string) :
  AppTsx.renderNodes baseNodes None = baseNodes
  ∧ ∀ (k : nat) n',
      AppTsx.renderNodes baseNodes (Some (AppTsx.buildHighlightSet path)) !! k
      = Some n' →
      ∃ n, baseNodes !! k = Some n
           ∧ node_id n' = node_id n ∧ node_label n' = node_label n
           ∧ node_position n' = node_position n
           ∧ node_className n' =
               (node_className n ++ " " ++
                (if bool_decide (node_id n ∈ path)
                 then "ring-2 ring-sky-400 ring-offset-2 ring-offset-slate-950"
                 else ""))%string.
Proof.
  split; [reflexivity|].
  intros k n' Hk. rewrite OverlayFacts.renderNodes_lookup in Hk.
  destruct (baseNodes !! k) as [n|]; [|done]. injection Hk as <-.
  exists n. split_and!; [done..|]. simpl.
  by rewrite (bool_decide_ext _ _
                (AppTsxFacts.app_elem_of_nodeIds path (node_id n))).
Qed.

(** X8 on the mock graph with the suite TS-77 hovered: the third node,
    [/checkout], is on the path and ringed. *)
Lemma hovering_rings_the_nodes_of_the_path_witness :
  ∃ n', AppTsx.renderNodes
          (nodes (AppTsx.buildGraph dagre_origin AppTsx.mockGraph))
          (Some (AppTsx.buildHighlightSet ["/inventory"; "/checkout"])) !! 2%nat
        = Some n'
        ∧ node_id n' = "/checkout"
        ∧ node_className n' =
            (plainClassName ++ " " ++
             "ring-2 ring-sky-400 ring-offset-2 ring-offset-slate-950")%string.
Proof.
  destruct (hovering_rings_the_nodes_of_the_path
              (nodes (AppTsx.buildGraph dagre_origin AppTsx.mockGraph))
              ["/inventory"; "/checkout"]) as (_ & Hring).
  eexists. split; [reflexivity|].
  destruct (Hring 2%nat _ eq_refl) as (n & Hn & Hid & _ & _ & Hcls).
  injection Hn as <-. split; [exact Hid|]. rewrite Hcls. vm_compute. reflexivity.
Defined.

(** X9: the resolver's sets are bounded by the path: at most as many node
    ids as the path has elements, and at most one edge id fewer. *)
Theorem highlight_sets_are_bounded_by_the_path (path : list string) :
  (size (AppTsx.nodeIds (AppTsx.buildHighlightSet path)) ≤ length path)%nat
  ∧ (size (AppTsx.edgeIds (AppTsx.buildHighlightSet path)) ≤ length path - 1)%nat.
Proof.
  split.
  - apply OverlayFacts.size_list_to_set.
  - rewrite AppTsxFacts.app_edgeIds_fold.
    pose proof (OverlayFacts.size_fold_contribution path ∅) as H.
    by rewrite size_empty in H.
Qed.

(** ** The component's state *)

(** X10: in every state the page can reach by clicks on drawn nodes, the
    Close button and the suite buttons of the open sidebar, a selected id
    names a node of the record, so the sidebar is open whenever an id is
    selected, and a hovered suite is one of the related suites of the
    selected node. *)
Theorem hovered_suite_belongs_to_the_selected_node
    (dagre : Dagre) (graph : AppTsx.AppGraph) (st : AppComponent.State) :
  AppComponent.reachable dagre graph st →
  (∀ i, AppComponent.selectedNodeId st = Some i →
        ∃ n, AppComponent.selectedNode graph st = Some n ∧ AppTsx.id n = i)
  ∧ (∀ s, AppComponent.highlightedSuite st = Some s →
          ∃ n, AppComponent.selectedNode graph st = Some n
               ∧ s ∈ AppTsx.relatedTestSuites n).
Proof. apply ComponentFacts.reachable_invariant. Qed.

(** X10 after a click on the first drawn node of the two-page record and
    a hover over its suite. *)
Lemma hovered_suite_belongs_to_the_selected_node_witness :
  ∃ n, AppComponent.selectedNode AppComponent.loginGraph
         {| AppComponent.selectedNodeId := Some "/login";
            AppComponent.highlightedSuite := Some AppComponent.authSuite |}
       = Some n
       ∧ AppComponent.authSuite ∈ AppTsx.relatedTestSuites n.
Proof.
  assert (Hfirst : ∃ node,
            AppComponent.shownNodes dagre_origin AppComponent.loginGraph
              AppComponent.initial !! 0%nat = Some node
            ∧ node_id node = "/login").
  { eexists. split; reflexivity. }
  destruct Hfirst as (node & Hnode & Hid).
  assert (Hreach : AppComponent.reachable dagre_origin AppComponent.loginGraph
            (AppComponent.handle (AppComponent.Enter AppComponent.authSuite)
               (AppComponent.handle (AppComponent.NodeClick node)
                  AppComponent.initial))).
  { apply AppComponent.reachable_handle.
    - apply AppComponent.reachable_handle; [apply AppComponent.reachable_initial|].
      simpl. by eapply list_elem_of_lookup_2.
    - simpl. unfold AppComponent.selectedNode, AppComponent.handleNodeClick. simpl.
      rewrite Hid. eexists. split; [reflexivity|]. simpl. repeat constructor. }
  simpl in Hreach. unfold AppComponent.onMouseEnter, AppComponent.handleNodeClick in Hreach.
  simpl in Hreach. rewrite Hid in Hreach.
  apply (proj2 (hovered_suite_belongs_to_the_selected_node _ _ _ Hreach)).
  reflexivity.
Defined.

(** X11: when the ids of the record are pairwise distinct, a click on a
    drawn node opens the sidebar on the input node with the same id and
    the same label as the node that was clicked. *)
Theorem sidebar_shows_the_clicked_node
    (dagre : Dagre) (graph : AppTsx.AppGraph) (st : AppComponent.State)
    (node : Node) :
  NoDup (AppTsx.id <$> AppTsx.nodes graph) →
  node ∈ AppComponent.shownNodes dagre graph st →
  ∃ a, AppComponent.selectedNode graph (AppComponent.handleNodeClick node st)
       = Some a
       ∧ AppTsx.id a = node_id node ∧ AppTsx.label a = node_label node
       ∧ AppComponent.sidebarClass graph (AppComponent.handleNodeClick node st)
         = "translate-x-0".
Proof.
  intros Hnd Hnode.
  destruct (SidebarFacts.click_selects_same_label dagre graph st node Hnd Hnode)
    as (a & Hsel & Hid & Hlabel).
  exists a. split_and!; [done..|].
  unfold AppComponent.sidebarClass. by rewrite Hsel.
Qed.

(** X11 on the two-page record, for a click on its second drawn node. *)
Lemma sidebar_shows_the_clicked_node_witness :
  ∃ node a,
    AppComponent.shownNodes dagre_origin AppComponent.loginGraph
      AppComponent.initial !! 1%nat = Some node
    ∧ AppComponent.selectedNode AppComponent.loginGraph
        (AppComponent.handleNodeClick node AppComponent.initial) = Some a
    ∧ AppTsx.id a = "/dashboard" ∧ AppTsx.label a = node_label node.
Proof.
  assert (Hsecond : ∃ node,
            AppComponent.shownNodes dagre_origin AppComponent.loginGraph
              AppComponent.initial !! 1%nat = Some node
            ∧ node_id node = "/dashboard").
  { eexists. split; reflexivity. }
  destruct Hsecond as (node & Hnode & Hid).
  destruct (sidebar_shows_the_clicked_node dagre_origin AppComponent.loginGraph
              AppComponent.initial node) as (a & Hsel & Hida & Hlabel & _).
  - apply (bool_decide_unpack _). vm_compute. reflexivity.
  - by eapply list_elem_of_lookup_2.
  - exists node, a. split_and!; [done..| |done]. by rewrite Hida.
Defined.

(** ** The two kinds of input *)

(** X12: the trace builder builds the edges and the node ids that the
    explicit-graph builder of [App.tsx] builds from the record with one
    node per step and one edge per transition; when the first test case,
    if there is one, has a step, the two built graphs are equal. *)
Theorem trace_builder_agrees_with_explicit_builder
    (dagre : Dagre) (cases : list Part000.TestCase) :
  edges (Part000.buildGraph dagre cases)
  = edges (AppTsx.buildGraph dagre (Conversion.asRecord cases))
  ∧ node_ids (Part000.buildGraph dagre cases)
    = node_ids (AppTsx.buildGraph dagre (Conversion.asRecord cases))
  ∧ ((∀ c, cases !! 0%nat = Some c → Part000.steps c ≠ []) →
     Part000.buildGraph dagre cases
     = AppTsx.buildGraph dagre (Conversion.asRecord cases)).
Proof.
  split_and!.
  - apply ConversionFacts.conversion_edges.
  - apply ConversionFacts.conversion_node_ids.
  - intros Hfirst. by apply ConversionFacts.conversion_graph,
      ConversionFacts.conversion_start.
Qed.

(** X12 on the mock traces. *)
Lemma trace_builder_agrees_with_explicit_builder_witness :
  Part000.buildGraph dagre_origin Part000.mockCases
  = AppTsx.buildGraph dagre_origin (Conversion.asRecord Part000.mockCases).
Proof.
  apply (trace_builder_agrees_with_explicit_builder dagre_origin Part000.mockCases).
  intros c [= <-]. discriminate.
Defined.

(** ** Growing inputs *)

(** X13: input added at the end never moves what was built before: the
    node ids and edge ids built from a trace list are a prefix of those
    built from the list with further test cases appended, and likewise
    for an explicit record with further nodes and edges appended. *)
Theorem appended_input_keeps_built_order (dagre : Dagre) :
  (∀ cases later,
     node_ids (Part000.buildGraph dagre cases)
       `prefix_of` node_ids (Part000.buildGraph dagre (cases ++ later))
     ∧ edge_ids (Part000.buildGraph dagre cases)
         `prefix_of` edge_ids (Part000.buildGraph dagre (cases ++ later)))
  ∧ (∀ ns es moreNodes moreEdges,
       node_ids (AppTsx.buildGraph dagre {| AppTsx.nodes := ns; AppTsx.edges := es |})
         `prefix_of`
         node_ids (AppTsx.buildGraph dagre
                     {| AppTsx.nodes := ns ++ moreNodes;
                        AppTsx.edges := es ++ moreEdges |})
       ∧ edge_ids (AppTsx.buildGraph dagre {| AppTsx.nodes := ns; AppTsx.edges := es |})
           `prefix_of`
           edge_ids (AppTsx.buildGraph dagre
                       {| AppTsx.nodes := ns ++ moreNodes;
                          AppTsx.edges := es ++ moreEdges |})).
Proof.
  split.
  - intros cases later.
    rewrite !MoreBuilderFacts.traces_node_ids_order,
      !MoreBuilderFacts.traces_edge_ids_order.
    unfold Part000.allSteps, Part000.allTransitions.
    rewrite !fmap_app, !concat_app, !fmap_app, !OrderFacts.first_occurrences_app.
    split; apply prefix_app_r; done.
  - intros ns es moreNodes moreEdges.
    rewrite !MoreBuilderFacts.app_node_ids_order,
      !MoreBuilderFacts.app_edge_ids_order. simpl.
    rewrite !fmap_app, !OrderFacts.first_occurrences_app.
    split; apply prefix_app_r; done.
Qed.

(** ** The component of the third revision *)

(** X14: in the third revision a click on a built node opens the sidebar
    on the first input node with the clicked id, and on a node with the
    clicked label when the input ids are pairwise distinct; Close, like the
    initial state, shows no node. *)
Theorem third_revision_sidebar_follows_clicks
    (dagre : Dagre) (graph : Part001.AppGraph) (st : Part001Component.State) :
  (∀ node,
     node ∈ nodes (Part001.buildGraph dagre graph) →
     ∃ a, Part001Component.selectedNode graph
            (Part001Component.handleNodeClick node st) = Some a
          ∧ Part001.id a = node_id node
          ∧ Part001Component.sidebarClass graph
              (Part001Component.handleNodeClick node st) = "translate-x-0"
          ∧ (NoDup (Part001.id <$> Part001.nodes graph) →
             Part001.label a = node_label node))
  ∧ Part001Component.selectedNode graph (Part001Component.handleCloseSidebar st)
    = None
  ∧ Part001Component.selectedNode graph Part001Component.initial = None.
Proof.
  assert (Hnone : Part001Component.selectedNode graph None = None).
  { unfold Part001Component.selectedNode.
    induction (Part001.nodes graph) as [|n ns IH]; simpl; [done|].
    first [exact IH | by rewrite bool_decide_eq_false_2]. }
  split_and!; [|exact Hnone..].
  intros node Hnode.
  pose proof (MoreBuilderFacts.entry_node_last dagre graph node Hnode)
    as (a' & Hlast & Hlabel).
  assert (Hin : node_id node ∈ Part001.id <$> Part001.nodes graph).
  { apply (Part001Facts.entry_elem_of_node_ids dagre).
    by apply list_elem_of_fmap_2. }
  unfold Part001Component.selectedNode, Part001Component.sidebarClass,
    Part001Component.selectedNode, Part001Component.handleNodeClick.
  rewrite (SidebarFacts.find_ext_elem _
             (λ n, bool_decide (Part001.id n = node_id node)))
    by (intros b; apply bool_decide_ext; split; congruence).
  destruct (List.find (λ n, bool_decide (Part001.id n = node_id node))
              (Part001.nodes graph)) as [a|] eqn:Hfind.
  - exists a. split_and!; [done| |done|].
    + apply find_some in Hfind as [_ Ha]. by apply bool_decide_eq_true in Ha.
    + intros Hnd.
      rewrite (MoreBuilderFacts.find_reverse_NoDup Part001.id) in Hlast by done.
      rewrite Hfind in Hlast. injection Hlast as <-. done.
  - exfalso. apply list_elem_of_fmap in Hin as (b & Hb & Hbin).
    apply list_elem_of_In in Hbin. apply (find_none _ _ Hfind) in Hbin.
    by rewrite bool_decide_eq_true_2 in Hbin.
Qed.

(** X14 on the record whose second node is the flagged one, for a click
    on the start node. *)
Lemma third_revision_sidebar_follows_clicks_witness :
  ∃ node a,
    nodes (Part001.buildGraph dagre_origin Part001.flaggedSecond) !! 1%nat
    = Some node
    ∧ Part001Component.selectedNode Part001.flaggedSecond
        (Part001Component.handleNodeClick node None) = Some a
    ∧ Part001.id a = "X" ∧ Part001.label a = node_label node.
Proof.
  assert (Hsecond : ∃ node,
            nodes (Part001.buildGraph dagre_origin Part001.flaggedSecond) !! 1%nat
            = Some node ∧ node_id node = "X").
  { eexists. split; reflexivity. }
  destruct Hsecond as (node & Hnode & Hid).
  destruct (third_revision_sidebar_follows_clicks dagre_origin
              Part001.flaggedSecond None) as (Hclick & _ & _).
  destruct (Hclick node) as (a & Hsel & Hida & _ & Hlabel).
  - by eapply list_elem_of_lookup_2.
  - exists node, a. split_and!; [done..| |].
    + by rewrite Hida.
    + apply Hlabel. apply (bool_decide_unpack _). vm_compute. reflexivity.
Defined.

End Further.
